(** * Youtube-auto: the job store, the pipeline worker and the route handlers

    A shallow embedding of [Main.py]: the in-memory job store [jobs], the
    response unwrapping [safe_extract_text], the background pipeline
    [generation_worker] and the Flask handlers [generate] and [status],
    followed by the properties of the job life cycle.  The handler
    [download] serves a file of the temporary directory and does not refer
    to [jobs]; it appears as an event that leaves the store alone.

    Python values are embedded as the inductive type [pyval]; strings are
    sequences of characters with code points below 256.  The store [jobs] is
    a finite map from job identifiers to records of the four fields the code
    keeps for a job.  The worker is a small-step machine with one step for
    each line that reads or writes [jobs] or calls a collaborator, so that
    status readers and other workers can be interleaved between its steps. *)

From Stdlib Require Import ZArith String Ascii List.
From stdpp Require Import base option list gmap strings.

Open Scope Z_scope.

(** ** Results of operations that may raise *)

Inductive result (E A : Type) : Type :=
| Ok (a : A)
| Raise (e : E).
Arguments Ok {E A} a.
Arguments Raise {E A} e.

#[global] Instance result_ret {E} : MRet (result E) := fun _ a => Ok a.
#[global] Instance result_bind {E} : MBind (result E) := fun _ _ f m =>
  match m with
  | Ok a => f a
  | Raise e => Raise e
  end.

(** ** Python strings *)

(** [str.isspace] on one character, for code points below 256: the ASCII
    separators 0x09-0x0D, 0x1C-0x20, and 0x85, 0xA0. *)
Definition isspace (c : ascii) : bool :=
  let n := N_of_ascii c in
  ((9 <=? n)%N && (n <=? 13)%N) || ((28 <=? n)%N && (n <=? 32)%N)
  || (n =? 133)%N || (n =? 160)%N.

Fixpoint mem_char (c : ascii) (chars : string) : bool :=
  match chars with
  | EmptyString => false
  | String d rest => if Ascii.eqb c d then true else mem_char c rest
  end.

Fixpoint lstrip_by (p : ascii -> bool) (s : string) : string :=
  match s with
  | EmptyString => EmptyString
  | String c rest => if p c then lstrip_by p rest else s
  end.

Fixpoint rstrip_by (p : ascii -> bool) (s : string) : string :=
  match s with
  | EmptyString => EmptyString
  | String c rest =>
      match rstrip_by p rest with
      | EmptyString => if p c then EmptyString else String c EmptyString
      | kept => String c kept
      end
  end.

(** [s.strip()] *)
Definition strip (s : string) : string :=
  rstrip_by isspace (lstrip_by isspace s).

(** [s.rstrip(chars)] *)
Definition rstrip (chars : string) (s : string) : string :=
  rstrip_by (fun c => mem_char c chars) s.

Fixpoint ends_with_char (c : ascii) (s : string) : bool :=
  match s with
  | EmptyString => false
  | String d EmptyString => Ascii.eqb c d
  | String _ rest => ends_with_char c rest
  end.

Fixpoint replicate_char (n : nat) (c : ascii) : string :=
  match n with
  | O => EmptyString
  | S k => String c (replicate_char k c)
  end.

Definition newline : string := String (ascii_of_nat 10) EmptyString.

Section Program.

(** Python floats are kept abstract, with the builtins that inspect them:
    [repr] (total on the values below), [int] on a string and on a float. *)
Context {pyfloat : Type}.

(** ** Python values: what a JSON body or a collaborator's answer holds *)

#[warnings="-register-all"]
Inductive pyval : Type :=
| PNone
| PBool (b : bool)
| PInt (n : Z)
| PFloat (x : pyfloat)
| PStr (s : string)
| PList (l : list pyval)
| PDict (d : list (string * pyval)).

(** Exceptions that reach Flask from a handler. *)
Inductive req_exn : Type :=
| BadRequest | AttributeError | TypeError | ValueError | OverflowError.

Variable py_repr : pyval -> string.
Variable int_of_str : string -> option Z.
Variable int_of_float : pyfloat -> result req_exn Z.

(** [str(v)]: a string is itself, every other value is rendered by [repr]. *)
Definition py_str (v : pyval) : string :=
  match v with
  | PStr s => s
  | _ => py_repr v
  end.

Definition is_str (v : pyval) : bool :=
  match v with
  | PStr _ => true
  | _ => false
  end.

(** Lookup of a string key in a dict. *)
Fixpoint dict_lookup (k : string) (d : list (string * pyval)) : option pyval :=
  match d with
  | [] => None
  | (k', v) :: rest => if decide (k = k') then Some v else dict_lookup k rest
  end.

(** Exceptions raised inside the worker: by a lookup, or by a collaborator
    or the file system ([Failure text], where [text] is what [str(e)] gives). *)
Inductive exn : Type :=
| KeyError (key : string)
| IndexError
| Failure (text : string).

(** [str(e)] *)
Definition exn_str (e : exn) : string :=
  match e with
  | KeyError k => py_repr (PStr k)
  | IndexError => "list index out of range"
  | Failure text => text
  end.

(** [d[k]] *)
Definition dict_getitem (d : list (string * pyval)) (k : string)
  : result exn pyval :=
  match dict_lookup k d with
  | Some v => Ok v
  | None => Raise (KeyError k)
  end.

(** [l[0]] *)
Definition list_head (l : list pyval) : result exn pyval :=
  match l with
  | x :: _ => Ok x
  | [] => Raise IndexError
  end.

(** [d.get(k, default)] on a dict. *)
Definition dict_get (d : list (string * pyval)) (k : string) (default : pyval)
  : pyval :=
  match dict_lookup k d with
  | Some v => v
  | None => default
  end.

(** The body of the [try] block of [safe_extract_text]. *)
Definition safe_extract_text_body (resp : pyval) : result exn pyval :=
  match resp with
  | PStr _ => Ok resp
  | PDict d =>
      if bool_decide (is_Some (dict_lookup "generated_text" d))
      then dict_getitem d "generated_text"
      else Ok (PStr (py_str resp))
  | PList l =>
      if bool_decide (0 < Z.of_nat (length l)) then
        first ← list_head l;
        match first with
        | PDict d0 => Ok (dict_get d0 "generated_text" (PStr (py_str first)))
        | _ => Ok (PStr (py_str first))
        end
      else Ok (PStr (py_str resp))
  | _ => Ok (PStr (py_str resp))
  end.

(** [safe_extract_text(resp)] on the values on which [str] returns: the [try]
    body, and [str(resp)] when it raised.  This is the function as the worker
    meets it; [safe_extract_text_exact] below follows the exceptions of [str]
    as well. *)
Definition safe_extract_text (resp : pyval) : result exn pyval :=
  match safe_extract_text_body resp with
  | Ok v => Ok v
  | Raise _ => Ok (PStr (py_str resp))
  end.

(** [str] does not return on every value: it raises on an integer with more
    digits than the interpreter converts and on a nesting deeper than its
    recursion limit.  [str_raises v] is the exception that [str(v)] raises,
    [None] when it returns; what it returns is then [py_str v]. *)
Variable str_raises : pyval -> option exn.

(** [str(v)] with its exceptions; on a string it returns the string. *)
Definition str_call (v : pyval) : result exn string :=
  match v with
  | PStr s => Ok s
  | _ =>
      match str_raises v with
      | Some e => Raise e
      | None => Ok (py_repr v)
      end
  end.

(** [str(v)] as the value a [return] hands back. *)
Definition str_value (v : pyval) : result exn pyval :=
  s ← str_call v; Ok (PStr s).

(** The [try] block of [safe_extract_text], every call of [str] included;
    on line 30 the default [str(resp[0])] is evaluated before [get] runs. *)
Definition safe_extract_text_try (resp : pyval) : result exn pyval :=
  match resp with
  | PStr _ => Ok resp
  | PDict d =>
      if bool_decide (is_Some (dict_lookup "generated_text" d))
      then dict_getitem d "generated_text"
      else str_value resp
  | PList l =>
      if bool_decide (0 < Z.of_nat (length l)) then
        first ← list_head l;
        match first with
        | PDict d0 =>
            default ← str_call first;
            Ok (dict_get d0 "generated_text" (PStr default))
        | _ => str_value first
        end
      else str_value resp
  | _ => str_value resp
  end.

(** [safe_extract_text(resp)] with the exceptions of [str]: the [except]
    branch calls [str(resp)] once more, and what that raises leaves the
    function. *)
Definition safe_extract_text_exact (resp : pyval) : result exn pyval :=
  match safe_extract_text_try resp with
  | Ok v => Ok v
  | Raise _ => str_value resp
  end.

(** ** The job store *)

(** One entry of [jobs]: the dict with the keys "status", "message",
    "download_url" and "script". *)
Record job : Type := Job {
  j_status : string;
  j_message : string;
  j_download_url : string;
  j_script : pyval
}.

Definition with_status (v : string) (r : job) : job :=
  {| j_status := v; j_message := j_message r;
     j_download_url := j_download_url r; j_script := j_script r |}.
Definition with_message (v : string) (r : job) : job :=
  {| j_status := j_status r; j_message := v;
     j_download_url := j_download_url r; j_script := j_script r |}.
Definition with_download_url (v : string) (r : job) : job :=
  {| j_status := j_status r; j_message := j_message r;
     j_download_url := v; j_script := j_script r |}.
Definition with_script (v : pyval) (r : job) : job :=
  {| j_status := j_status r; j_message := j_message r;
     j_download_url := j_download_url r; j_script := v |}.

(** The record [generate] inserts. *)
Definition queued_job : job :=
  {| j_status := "queued"; j_message := ""; j_download_url := "";
     j_script := PStr "" |}.

(** [jobs[job_id][key] = v]: the entry must exist, else [KeyError]. *)
Definition set_field (f : job -> job) (job_id : string) (jobs : gmap string job)
  : result exn (gmap string job) :=
  match jobs !! job_id with
  | Some r => Ok (<[job_id := f r]> jobs)
  | None => Raise (KeyError job_id)
  end.

(** ** The pipeline worker *)

Record worker_args : Type := WorkerArgs {
  job_id : string;
  topic : string;
  video_length : Z;
  ratio : pyval;
  base_url : string
}.

Definition prompt (a : worker_args) : string :=
  "Generate a concise, engaging, viral YouTube Shorts script (max "
  +:+ py_str (PInt (video_length a)) +:+ " seconds) on the topic: '"
  +:+ topic a +:+ "'." +:+ newline
  +:+ "Make it faceless (no human faces). Include a strong hook, 2-3 clear points, short visual cues for each line (e.g., 'close-up of object', 'text overlay', 'stock nature b-roll'), and a call to action. Format for vertical 9:16 short.".

Definition video_prompt (a : worker_args) (script : pyval) : string :=
  py_str script +:+ newline +:+ newline
  +:+ "Video instructions: vertical " +:+ py_str (ratio a)
  +:+ ", no faces, fast cuts, text overlays, length ~"
  +:+ py_str (PInt (video_length a))
  +:+ "s. Keep visuals high-energy and suitable for a YouTube Short.".

Definition artifact_name (uuid : string) : string :=
  "short_" +:+ uuid +:+ ".mp4".

(** Where a worker stands: the line it is about to execute, with the local
    variables that line needs. *)
Inductive wstate : Type :=
| WStart                                  (* line 37 *)
| WCallText                               (* lines 40-44 *)
| WStoreScript (script : pyval)           (* line 46 *)
| WCallVideo (script : pyval)             (* lines 49-53 *)
| WSave (video_bytes : list Byte.byte)    (* lines 56-60 *)
| WSetDone (filename : string)            (* lines 63-64 *)
| WSetUrl (download_url : string)         (* line 65 *)
| WExcStatus (e : exn)                    (* line 67 *)
| WExcMessage (e : exn)                   (* line 68 *)
| WFinished
| WCrashed (e : exn).                     (* an exception left the thread *)

(** What one step does: a write to the job's entry or a call outside. *)
Inductive action : Type :=
| SetStatus (v : string)
| SetScript (v : pyval)
| SetDownloadUrl (v : string)
| SetMessage (v : string)
| CallText (prompt : string)
| CallVideo (video_prompt : string)
| CallStore (filename : string) (data : list Byte.byte)
| Raises (e : exn).                       (* the line raised before it wrote *)

(** What the world answers to a step: nothing for a line that only touches
    [jobs], the collaborator's return value or exception for a call, and for
    the save the fresh [uuid4().hex] with the outcome of the file write. *)
Inductive outcome : Type :=
| Silent
| TextReturned (r : result exn pyval)
| VideoReturned (r : result exn (list Byte.byte))
| FileWritten (uuid : string) (r : result exn unit).

Definition store_step (act : action) (f : job -> job) (a : worker_args)
    (jobs : gmap string job) (next : wstate) (handler : exn -> wstate)
  : option (action * wstate * gmap string job) :=
  match set_field f (job_id a) jobs with
  | Ok jobs' => Some (act, next, jobs')
  | Raise e => Some (Raises e, handler e, jobs)
  end.

Definition call_step {A} (act : action) (r : result exn A)
    (jobs : gmap string job) (next : A -> wstate)
  : option (action * wstate * gmap string job) :=
  match r with
  | Ok x => Some (act, next x, jobs)
  | Raise e => Some (act, WExcStatus e, jobs)
  end.

(** One step of [generation_worker].  Line 37 is outside the [try]: an
    exception there leaves the thread; inside the [try] it enters the handler
    (line 67); inside the handler it leaves the thread. *)
Definition worker_step (a : worker_args) (w : outcome) (pc : wstate)
    (jobs : gmap string job) : option (action * wstate * gmap string job) :=
  match pc, w with
  | WStart, Silent =>
      store_step (SetStatus "processing") (with_status "processing") a jobs
        WCallText WCrashed
  | WCallText, TextReturned r =>
      call_step (CallText (prompt a)) (text_resp ← r; safe_extract_text text_resp)
        jobs WStoreScript
  | WStoreScript script, Silent =>
      store_step (SetScript script) (with_script script) a jobs
        (WCallVideo script) WExcStatus
  | WCallVideo script, VideoReturned r =>
      call_step (CallVideo (video_prompt a script)) r jobs WSave
  | WSave video_bytes, FileWritten uuid r =>
      let filename := artifact_name uuid in
      call_step (CallStore filename video_bytes) r jobs (fun _ => WSetDone filename)
  | WSetDone filename, Silent =>
      let download_url := rstrip "/" (base_url a) +:+ "/download/" +:+ filename in
      store_step (SetStatus "done") (with_status "done") a jobs
        (WSetUrl download_url) WExcStatus
  | WSetUrl download_url, Silent =>
      store_step (SetDownloadUrl download_url) (with_download_url download_url)
        a jobs WFinished WExcStatus
  | WExcStatus e, Silent =>
      store_step (SetStatus "error") (with_status "error") a jobs
        (WExcMessage e) WCrashed
  | WExcMessage e, Silent =>
      store_step (SetMessage (exn_str e)) (with_message (exn_str e)) a jobs
        WFinished WCrashed
  | _, _ => None
  end.

(** The answers one run of the worker meets: each call happens at most once. *)
Record oracle : Type := Oracle {
  text_result : result exn pyval;
  video_result : result exn (list Byte.byte);
  file_uuid : string;
  write_result : result exn unit
}.

Definition answer (o : oracle) (pc : wstate) : outcome :=
  match pc with
  | WCallText => TextReturned (text_result o)
  | WCallVideo _ => VideoReturned (video_result o)
  | WSave _ => FileWritten (file_uuid o) (write_result o)
  | _ => Silent
  end.

Fixpoint run_worker (fuel : nat) (a : worker_args) (o : oracle) (pc : wstate)
    (jobs : gmap string job) : list action * wstate * gmap string job :=
  match fuel with
  | O => ([], pc, jobs)
  | S n =>
      match worker_step a (answer o pc) pc jobs with
      | None => ([], pc, jobs)
      | Some (act, pc', jobs') =>
          let '(acts, pc'', jobs'') := run_worker n a o pc' jobs' in
          (act :: acts, pc'', jobs'')
      end
  end.

(** [generation_worker(job_id, topic, video_length, ratio, base_url)] run
    alone from its first line to its end: the actions it performed in order,
    where it stopped, and the store it leaves.  No path has more than nine
    steps. *)
Definition generation_worker (a : worker_args) (o : oracle)
    (jobs : gmap string job) : list action * wstate * gmap string job :=
  run_worker 9 a o WStart jobs.

(** ** The route handlers *)

(** A request as a handler sees it: the parsed JSON body ([None] when the
    body is not JSON, where [get_json(force=True)] raises) and
    [request.url_root]. *)
Record request : Type := Request {
  req_json : option pyval;
  url_root : string
}.

(** A response: the status code and the object given to [jsonify]. *)
Record response : Type := Response {
  code : Z;
  payload : pyval
}.

(** What a handler does to the process besides answering, in order. *)
Inductive effect : Type :=
| StoreJob (job_id : string) (r : job)      (* jobs[job_id] = r *)
| StartThread (a : worker_args).            (* Thread(target=generation_worker, args=a).start() *)

Definition get_json (req : request) : result req_exn pyval :=
  match req_json req with
  | Some body => Ok body
  | None => Raise BadRequest
  end.

(** [body.get(k, default)]: only a dict has the method. *)
Definition py_get (body : pyval) (k : string) (default : pyval)
  : result req_exn pyval :=
  match body with
  | PDict d => Ok (dict_get d k default)
  | _ => Raise AttributeError
  end.

(** [v.strip()]: only a string has the method. *)
Definition py_strip (v : pyval) : result req_exn string :=
  match v with
  | PStr s => Ok (strip s)
  | _ => Raise AttributeError
  end.

(** [int(v)] *)
Definition py_int (v : pyval) : result req_exn Z :=
  match v with
  | PInt n => Ok n
  | PBool b => Ok (if b then 1 else 0)
  | PFloat x => int_of_float x
  | PStr s =>
      match int_of_str s with
      | Some n => Ok n
      | None => Raise ValueError
      end
  | PNone | PList _ | PDict _ => Raise TypeError
  end.

(** Lines 72-75 of [generate]. *)
Definition read_arguments (req : request) : result req_exn (string * Z * pyval) :=
  body ← get_json req;
  t ← py_get body "topic" (PStr "");
  topic ← py_strip t;
  n ← py_get body "video_length" (PInt 60);
  video_length ← py_int n;
  ratio ← py_get body "ratio" (PStr "9:16");
  mret (topic, video_length, ratio).

Definition missing_topic : response :=
  {| code := 400;
     payload := PDict [("status", PStr "error"); ("message", PStr "Missing topic")] |}.

Definition submitted (job_id base_url : string) : response :=
  {| code := 202;
     payload := PDict [("status", PStr "submitted"); ("job_id", PStr job_id);
                       ("status_url", PStr (base_url +:+ "/status/" +:+ job_id))] |}.

(** [generate()]; [uuid] is the value [uuid4().hex] takes if it is reached. *)
Definition generate (req : request) (uuid : string)
  : list effect * result req_exn response :=
  match read_arguments req with
  | Raise e => ([], Raise e)
  | Ok (topic, video_length, ratio) =>
      if decide (topic = "") then ([], Ok missing_topic)
      else
        let job_id := uuid in
        let base_url := rstrip "/" (url_root req) in
        ([StoreJob job_id queued_job;
          StartThread {| job_id := job_id; topic := topic;
                         video_length := video_length; ratio := ratio;
                         base_url := base_url |}],
         Ok (submitted job_id base_url))
  end.

Definition job_not_found : response :=
  {| code := 404;
     payload := PDict [("status", PStr "error"); ("message", PStr "job_id not found")] |}.

(** The entry of a job as the dict it is. *)
Definition job_dict (r : job) : pyval :=
  PDict [("status", PStr (j_status r)); ("message", PStr (j_message r));
         ("download_url", PStr (j_download_url r)); ("script", j_script r)].

(** [status(job_id)]: an entry always holds its four keys, so [not j] is
    true only when [jobs.get] gave [None]. *)
Definition status (job_id : string) (jobs : gmap string job)
  : list effect * result req_exn response :=
  match jobs !! job_id with
  | None => ([], Ok job_not_found)
  | Some j => ([], Ok {| code := 200; payload := job_dict j |})
  end.

(** ** The process: the store and the worker threads *)

Record thread : Type := Thread {
  th_args : worker_args;
  th_pc : wstate
}.

Record system : Type := System {
  jobs : gmap string job;
  threads : list thread;
  handlers : list (list effect)
}.

Definition initial : system := {| jobs := ∅; threads := []; handlers := [] |}.

Definition apply_effect (s : system) (e : effect) : system :=
  match e with
  | StoreJob job_id r =>
      {| jobs := <[job_id := r]> (jobs s); threads := threads s;
         handlers := handlers s |}
  | StartThread a =>
      {| jobs := jobs s;
         threads := threads s ++ [{| th_args := a; th_pc := WStart |}];
         handlers := handlers s |}
  end.

Definition apply_effects (effs : list effect) (s : system) : system :=
  foldl apply_effect s effs.

Definition with_handlers (hs : list (list effect)) (s : system) : system :=
  {| jobs := jobs s; threads := threads s; handlers := hs |}.

(** What can happen next: a request to one of the three routes, one step of
    the worker thread number [i], or the request number [k] that is inside
    [generate] going on to its next effect ([started] is false when
    [Thread.start] raises). *)
Inductive event : Type :=
| PostGenerate (req : request) (uuid : string)
| GetStatus (job_id : string)
| GetDownload (filename : string)
| Work (i : nat) (w : outcome)
| Proceed (k : nat) (started : bool).

(** One event.  [PostGenerate] runs [generate] up to its first effect, the
    store of line 82, and keeps in [handlers] what the request has still to
    do (the start of the thread, line 89), so that other events can come in
    between; [Proceed] does the next effect of such a request, and a
    [Thread.start] that raises ends the request with the entry stored and no
    thread.  When [generate] reaches [uuid4], the identifier it gets is taken
    not to be a key of [jobs] yet; [download] does not mention [jobs]. *)
Definition sys_step (ev : event) (s : system) : option system :=
  match ev with
  | PostGenerate req uuid =>
      match (generate req uuid).1 with
      | [] => Some s
      | e :: rest =>
          if decide (jobs s !! uuid = None)
          then Some (with_handlers (handlers s ++ [rest]) (apply_effect s e))
          else None
      end
  | GetStatus job_id => Some (apply_effects (status job_id (jobs s)).1 s)
  | GetDownload _ => Some s
  | Work i w =>
      t ← threads s !! i;
      '(_, pc', jobs') ← worker_step (th_args t) w (th_pc t) (jobs s);
      Some {| jobs := jobs';
              threads := <[i := {| th_args := th_args t; th_pc := pc' |}]> (threads s);
              handlers := handlers s |}
  | Proceed k started =>
      match handlers s !! k with
      | Some (e :: rest) =>
          match e, started with
          | StartThread _, false => Some (with_handlers (<[k := []]> (handlers s)) s)
          | StoreJob _ _, false => None
          | _, true =>
              Some (with_handlers (<[k := rest]> (handlers s)) (apply_effect s e))
          end
      | _ => None
      end
  end.

Fixpoint sys_run (evs : list event) (s : system) : option system :=
  match evs with
  | [] => Some s
  | ev :: rest => s' ← sys_step ev s; sys_run rest s'
  end.

Definition reachable (s : system) : Prop :=
  ∃ evs, sys_run evs initial = Some s.

(** ** Predicates used by the statements *)

(** The moves of the status chain: stay, queued to processing, processing to
    done or error. *)
Definition status_move (x y : string) : Prop :=
  x = y ∨ (x = "queued" ∧ y = "processing")
  ∨ (x = "processing" ∧ (y = "done" ∨ y = "error")).

(** The values a run wrote to "status", in order. *)
Fixpoint status_writes (acts : list action) : list string :=
  match acts with
  | [] => []
  | SetStatus v :: rest => v :: status_writes rest
  | _ :: rest => status_writes rest
  end.

Definition is_outside_call (act : action) : bool :=
  match act with
  | CallText _ | CallVideo _ | CallStore _ _ => true
  | _ => false
  end.

(** The number of calls to the media collaborator and to the file store. *)
Fixpoint count_video (acts : list action) : nat :=
  match acts with
  | [] => 0
  | CallVideo _ :: rest => S (count_video rest)
  | _ :: rest => count_video rest
  end.

Fixpoint count_store (acts : list action) : nat :=
  match acts with
  | [] => 0
  | CallStore _ _ :: rest => S (count_store rest)
  | _ :: rest => count_store rest
  end.

(** The exception of the first stage that fails, if one does. *)
Definition first_failure (o : oracle) : option exn :=
  match text_result o, video_result o, write_result o with
  | Raise e, _, _ => Some e
  | Ok _, Raise e, _ => Some e
  | Ok _, Ok _, Raise e => Some e
  | Ok _, Ok _, Ok _ => None
  end.

(** The exception an event hands to a worker, if it does. *)
Definition raised_by (ev : event) : option exn :=
  match ev with
  | Work _ (TextReturned (Raise e)) => Some e
  | Work _ (VideoReturned (Raise e)) => Some e
  | Work _ (FileWritten _ (Raise e)) => Some e
  | _ => None
  end.

(** Every exception the events raise satisfies [P]. *)
Definition raises_only (P : exn -> Prop) (evs : list event) : Prop :=
  Forall (fun ev => ∀ e, raised_by ev = Some e → P e) evs.


(** What the entry of a job looks like while its worker stands at [pc]. *)
Definition fits (P : exn -> Prop) (pc : wstate) (r : job) : Prop :=
  match pc with
  | WStart =>
      j_status r = "queued" ∧ j_message r = "" ∧ j_download_url r = ""
  | WCallText | WStoreScript _ | WCallVideo _ | WSave _ | WSetDone _ =>
      j_status r = "processing" ∧ j_message r = "" ∧ j_download_url r = ""
  | WExcStatus e =>
      j_status r = "processing" ∧ j_message r = "" ∧ j_download_url r = "" ∧ P e
  | WSetUrl u =>
      j_status r = "done" ∧ j_message r = "" ∧ j_download_url r = "" ∧ u ≠ ""
  | WExcMessage e =>
      j_status r = "error" ∧ j_message r = "" ∧ j_download_url r = "" ∧ P e
  | WFinished =>
      (j_status r = "done" ∧ j_message r = "" ∧ j_download_url r ≠ "")
      ∨ (j_status r = "error" ∧ j_download_url r = ""
         ∧ ∃ e, j_message r = exn_str e ∧ P e)
  | WCrashed _ => False
  end.

(** The invariant of the process: threads have distinct jobs, every thread's
    job has an entry that fits where the thread stands, every entry belongs
    to a thread or is still the entry [generate] stored, a request inside
    [generate] has only the start of its thread left, for a job that has its
    queued entry and no thread yet, and no two such requests have the same
    job. *)
Definition inv (P : exn -> Prop) (s : system) : Prop :=
  (∀ i j ti tj, threads s !! i = Some ti → threads s !! j = Some tj →
     job_id (th_args ti) = job_id (th_args tj) → i = j)
  ∧ (∀ i t, threads s !! i = Some t →
       ∃ r, jobs s !! job_id (th_args t) = Some r ∧ fits P (th_pc t) r)
  ∧ (∀ id r, jobs s !! id = Some r →
       (∃ i t, threads s !! i = Some t ∧ job_id (th_args t) = id)
       ∨ r = queued_job)
  ∧ (∀ k effs, handlers s !! k = Some effs →
       effs = []
       ∨ ∃ a, effs = [StartThread a] ∧ jobs s !! job_id a = Some queued_job
              ∧ ∀ i t, threads s !! i = Some t → job_id (th_args t) ≠ job_id a)
  ∧ (∀ k k' a a', handlers s !! k = Some [StartThread a] →
       handlers s !! k' = Some [StartThread a'] →
       job_id a = job_id a' → k = k').

(** What one event does to the store and to the threads: nothing, the store
    of a queued entry under a new identifier, the start of the thread of a
    job that has its queued entry and no thread, or a step of a worker. *)
Definition step_shape (s s' : system) (ev : event) : Prop :=
  ((∀ i w, ev ≠ Work i w)
   ∧ ((jobs s' = jobs s ∧ threads s' = threads s)
      ∨ (∃ uuid, jobs s !! uuid = None
                 ∧ jobs s' = <[uuid := queued_job]> (jobs s)
                 ∧ threads s' = threads s)
      ∨ (∃ a, jobs s !! job_id a = Some queued_job
              ∧ (∀ i t, threads s !! i = Some t →
                   job_id (th_args t) ≠ job_id a)
              ∧ jobs s' = jobs s
              ∧ threads s' = threads s ++ [{| th_args := a; th_pc := WStart |}])))
  ∨ (∃ i w t act pc' m',
       ev = Work i w ∧ threads s !! i = Some t
       ∧ worker_step (th_args t) w (th_pc t) (jobs s) = Some (act, pc', m')
       ∧ jobs s' = m'
       ∧ threads s' = <[i := {| th_args := th_args t; th_pc := pc' |}]> (threads s)).

(** The number of calls to the text collaborator. *)
Fixpoint count_text (acts : list action) : nat :=
  match acts with
  | [] => 0
  | CallText _ :: rest => S (count_text rest)
  | _ :: rest => count_text rest
  end.

(** Every character of the string satisfies [p]. *)
Fixpoint all_chars (p : ascii -> bool) (s : string) : bool :=
  match s with
  | EmptyString => true
  | String c rest => p c && all_chars p rest
  end.

(** What the "script" of an entry holds while its worker stands at [pc]:
    nothing up to line 46, and from line 49 on what line 46 stored. *)
Definition script_fits (pc : wstate) (r : job) : Prop :=
  match pc with
  | WStart | WCallText | WStoreScript _ => j_script r = PStr ""
  | WCallVideo script => j_script r = script
  | _ => True
  end.

(** [F] relates the position of every thread to the entry of its job. *)
Definition everywhere (F : wstate -> job -> Prop) (s : system) : Prop :=
  ∀ i t r, threads s !! i = Some t → jobs s !! job_id (th_args t) = Some r →
    F (th_pc t) r.

(** The longest way from a position to the end of the worker, counted in
    steps, for a worker whose entry exists. *)
Definition steps_left (pc : wstate) : nat :=
  match pc with
  | WStart => 7
  | WCallText => 6
  | WStoreScript _ => 5
  | WCallVideo _ => 4
  | WSave _ => 3
  | WSetDone _ => 2
  | WSetUrl _ => 1
  | WExcStatus _ => 2
  | WExcMessage _ => 1
  | WFinished => 0
  | WCrashed _ => 0
  end.

(** A worker run alone on the outcomes [ws], one step for each. *)
Fixpoint run_outcomes (a : worker_args) (ws : list outcome) (pc : wstate)
    (m : gmap string job) : option (wstate * gmap string job) :=
  match ws with
  | [] => Some (pc, m)
  | w :: rest =>
      '(_, pc', m') ← worker_step a w pc m; run_outcomes a rest pc' m'
  end.

(** The outcomes that the events hand to the thread number [i], in order. *)
Fixpoint deliveries (i : nat) (evs : list event) : list outcome :=
  match evs with
  | [] => []
  | Work j w :: rest =>
      if decide (j = i) then w :: deliveries i rest else deliveries i rest
  | _ :: rest => deliveries i rest
  end.

(** * Properties *)

(** ** Strings *)

Lemma append_cons (c : ascii) (s t : string) :
  String c s +:+ t = String c (s +:+ t).
Proof. reflexivity. Qed.

Lemma append_not_empty_r (s t : string) : t ≠ "" → s +:+ t ≠ "".
Proof. destruct s; [done | rewrite append_cons; discriminate]. Qed.

Lemma rstrip_by_cons (p : ascii -> bool) (c : ascii) (s : string) :
  rstrip_by p (String c s) =
    match rstrip_by p s with
    | EmptyString => if p c then EmptyString else String c EmptyString
    | kept => String c kept
    end.
Proof. reflexivity. Qed.

(** What [rstrip_by] removes is a suffix of characters that satisfy [p]. *)
Lemma rstrip_by_suffix (p : ascii -> bool) (s : string) :
  ∃ tail, s = rstrip_by p s +:+ tail
          ∧ ∀ c, mem_char c tail = true → p c = true.
Proof.
  induction s as [|c s (tail & Heq & Htail)].
  - exists ""; split; [done | discriminate].
  - rewrite rstrip_by_cons. destruct (rstrip_by p s) as [|d kept] eqn:Hk.
    + destruct (p c) eqn:Hp.
      * exists (String c tail). split; [change ("" +:+ tail) with tail in Heq; by rewrite Heq |].
        intros x. simpl. destruct (Ascii.eqb_spec x c); [congruence | auto].
      * exists tail. split; [| done].
        change ("" +:+ tail) with tail in Heq. by rewrite Heq.
    + exists tail. split; [| done]. by rewrite append_cons, <- Heq.
Qed.

(** What [rstrip_by] keeps does not end with a character that satisfies [p]. *)
Lemma rstrip_by_last (p : ascii -> bool) (s : string) (c : ascii) :
  ends_with_char c (rstrip_by p s) = true → p c = false.
Proof.
  induction s as [|d s IH]; [discriminate |].
  rewrite rstrip_by_cons. destruct (rstrip_by p s) as [|e kept] eqn:Hk.
  - destruct (p d) eqn:Hp; [discriminate |].
    simpl. destruct (Ascii.eqb_spec c d); [congruence | discriminate].
  - intros H. apply IH. exact H.
Qed.

Lemma rstrip_by_idemp (p : ascii -> bool) (s : string) :
  rstrip_by p (rstrip_by p s) = rstrip_by p s.
Proof.
  induction s as [|d s IH]; [done |].
  rewrite rstrip_by_cons. destruct (rstrip_by p s) as [|e kept] eqn:Hk.
  - destruct (p d) eqn:Hp; [done |]. by rewrite rstrip_by_cons, Hp.
  - rewrite rstrip_by_cons, IH. done.
Qed.

Lemma rstrip_idemp (chars s : string) :
  rstrip chars (rstrip chars s) = rstrip chars s.
Proof. apply rstrip_by_idemp. Qed.

Lemma mem_char_slash (c : ascii) : mem_char c "/" = true → c = "/"%char.
Proof. simpl. destruct (Ascii.eqb_spec c "/"); [done | discriminate]. Qed.

Lemma only_slashes (tail : string) :
  (∀ c, mem_char c tail = true → mem_char c "/" = true) →
  ∃ k, tail = replicate_char k "/".
Proof.
  induction tail as [|c tail IH]; intros H.
  - by exists O.
  - destruct IH as [k ->].
    + intros x Hx. apply H. simpl. by destruct (Ascii.eqb x c).
    + exists (S k). simpl. f_equal. apply mem_char_slash, H.
      simpl. by rewrite Ascii.eqb_refl.
Qed.

(** [s.rstrip("/")] is [s] without its trailing slashes. *)
Lemma rstrip_slash_spec (s : string) :
  (∃ k, s = rstrip "/" s +:+ replicate_char k "/")
  ∧ ends_with_char "/" (rstrip "/" s) = false.
Proof.
  split.
  - destruct (rstrip_by_suffix (fun c => mem_char c "/") s) as (tail & Heq & Htail).
    destruct (only_slashes tail Htail) as [k ->]. by exists k.
  - destruct (ends_with_char "/" (rstrip "/" s)) eqn:He; [| done].
    apply rstrip_by_last in He. discriminate.
Qed.

(** ** [safe_extract_text] *)

(** The [try] block itself never raises: each lookup is guarded by its test. *)
Lemma safe_extract_text_body_ok (resp : pyval) :
  ∃ v, safe_extract_text_body resp = Ok v.
Proof.
  destruct resp as [| | | | |l|d]; simpl; eauto.
  - destruct l as [|x l]; simpl; [eauto |].
    destruct x; eauto.
  - unfold dict_getitem. case_bool_decide as Hin; [| eauto].
    destruct Hin as [v ->]. eauto.
Qed.

Lemma safe_extract_text_ok (resp : pyval) :
  ∃ v, safe_extract_text resp = Ok v.
Proof.
  unfold safe_extract_text.
  destruct (safe_extract_text_body_ok resp) as [v ->]. eauto.
Qed.

(** ** Single steps of the worker *)

Lemma set_field_present (f : job -> job) (id : string) (m : gmap string job) (r : job) :
  m !! id = Some r → set_field f id m = Ok (<[id := f r]> m).
Proof. intros H. unfold set_field. by rewrite H. Qed.

Lemma set_field_insert (f : job -> job) (id : string) (m : gmap string job) (r : job) :
  set_field f id (<[id := r]> m) = Ok (<[id := f r]> m).
Proof.
  rewrite (set_field_present f id _ r) by apply lookup_insert_eq.
  by rewrite insert_insert_eq.
Qed.

Lemma store_step_present act f (a : worker_args) (m : gmap string job) next handler r :
  m !! job_id a = Some r →
  store_step act f a m next handler = Some (act, next, <[job_id a := f r]> m).
Proof. intros H. unfold store_step. by rewrite (set_field_present f _ _ r H). Qed.

Lemma store_step_insert act f (a : worker_args) (m : gmap string job) next handler r :
  store_step act f a (<[job_id a := r]> m) next handler
  = Some (act, next, <[job_id a := f r]> m).
Proof. unfold store_step. by rewrite set_field_insert. Qed.

Lemma run_worker_unfold n (a : worker_args) (o : oracle) pc (m : gmap string job) :
  run_worker (S n) a o pc m =
    match worker_step a (answer o pc) pc m with
    | None => ([], pc, m)
    | Some (act, pc', m') =>
        let '(acts, pc'', m'') := run_worker n a o pc' m' in
        (act :: acts, pc'', m'')
    end.
Proof. reflexivity. Qed.

Lemma run_worker_finished n (a : worker_args) (o : oracle) (m : gmap string job) :
  run_worker n a o WFinished m = ([], WFinished, m).
Proof. by destruct n. Qed.

Lemma run_worker_crashed n (a : worker_args) (o : oracle) e (m : gmap string job) :
  run_worker n a o (WCrashed e) m = ([], WCrashed e, m).
Proof. by destruct n. Qed.

Ltac worker_line :=
  rewrite run_worker_unfold; unfold worker_step, answer;
  first [ rewrite store_step_insert
        | erewrite store_step_present by eassumption
        | unfold call_step ];
  simpl.

(** ** Whole runs of the worker, one lemma for each way a run can go *)

Local Opaque run_worker.

Section Runs.
Variables (a : worker_args) (o : oracle) (m : gmap string job) (r : job).
Hypothesis Hentry : m !! job_id a = Some r.

Let processing : job := with_status "processing" r.

Lemma run_text_fails e :
  text_result o = Raise e →
  generation_worker a o m =
    ([SetStatus "processing"; CallText (prompt a);
      SetStatus "error"; SetMessage (exn_str e)],
     WFinished,
     <[job_id a := with_message (exn_str e) (with_status "error" processing)]> m).
Proof.
  intros Ht. unfold generation_worker.
  worker_line. worker_line. rewrite Ht. simpl.
  worker_line. worker_line. by rewrite run_worker_finished.
Qed.

Lemma run_video_fails resp script e :
  text_result o = Ok resp → safe_extract_text resp = Ok script →
  video_result o = Raise e →
  generation_worker a o m =
    ([SetStatus "processing"; CallText (prompt a); SetScript script;
      CallVideo (video_prompt a script);
      SetStatus "error"; SetMessage (exn_str e)],
     WFinished,
     <[job_id a := with_message (exn_str e)
                     (with_status "error" (with_script script processing))]> m).
Proof.
  intros Ht Hs Hv. unfold generation_worker.
  worker_line. worker_line. rewrite Ht. simpl. rewrite Hs.
  worker_line. worker_line. rewrite Hv.
  worker_line. worker_line. by rewrite run_worker_finished.
Qed.

Lemma run_write_fails resp script data e :
  text_result o = Ok resp → safe_extract_text resp = Ok script →
  video_result o = Ok data → write_result o = Raise e →
  generation_worker a o m =
    ([SetStatus "processing"; CallText (prompt a); SetScript script;
      CallVideo (video_prompt a script);
      CallStore (artifact_name (file_uuid o)) data;
      SetStatus "error"; SetMessage (exn_str e)],
     WFinished,
     <[job_id a := with_message (exn_str e)
                     (with_status "error" (with_script script processing))]> m).
Proof.
  intros Ht Hs Hv Hw. unfold generation_worker.
  worker_line. worker_line. rewrite Ht. simpl. rewrite Hs.
  worker_line. worker_line. rewrite Hv.
  worker_line. rewrite Hw.
  worker_line. worker_line. by rewrite run_worker_finished.
Qed.

Lemma run_succeeds resp script data u :
  text_result o = Ok resp → safe_extract_text resp = Ok script →
  video_result o = Ok data → write_result o = Ok u →
  generation_worker a o m =
    ([SetStatus "processing"; CallText (prompt a); SetScript script;
      CallVideo (video_prompt a script);
      CallStore (artifact_name (file_uuid o)) data;
      SetStatus "done";
      SetDownloadUrl (rstrip "/" (base_url a) +:+ "/download/"
                      +:+ artifact_name (file_uuid o))],
     WFinished,
     <[job_id a := with_download_url
                     (rstrip "/" (base_url a) +:+ "/download/"
                      +:+ artifact_name (file_uuid o))
                     (with_status "done" (with_script script processing))]> m).
Proof.
  intros Ht Hs Hv Hw. unfold generation_worker.
  worker_line. worker_line. rewrite Ht. simpl. rewrite Hs.
  worker_line. worker_line. rewrite Hv.
  worker_line. rewrite Hw.
  worker_line. worker_line. by rewrite run_worker_finished.
Qed.
End Runs.

Local Transparent run_worker.

(** ** One step keeps the entry in line with the worker's position *)

Lemma download_url_not_empty (base name : string) :
  rstrip "/" base +:+ "/download/" +:+ name ≠ "".
Proof. apply append_not_empty_r. discriminate. Qed.

Lemma status_move_refl (x : string) : status_move x x.
Proof. by left. Qed.

Ltac split_fits :=
  repeat match goal with
         | H : _ ∧ _ |- _ => destruct H
         | H : ∃ _, _ |- _ => destruct H
         end.

Ltac chain_move :=
  unfold status_move; simpl;
  first [ by left
        | right; left; by split
        | right; right; split; [done | by left]
        | right; right; split; [done | by right] ].

Lemma worker_step_entry (P : exn -> Prop) (a : worker_args) (w : outcome)
    (pc pc' : wstate) (m m' : gmap string job) (act : action) (r : job) :
  m !! job_id a = Some r → fits P pc r →
  (∀ e, raised_by (Work 0 w) = Some e → P e) →
  worker_step a w pc m = Some (act, pc', m') →
  ∃ r', m' = <[job_id a := r']> m ∧ fits P pc' r'
        ∧ status_move (j_status r) (j_status r').
Proof.
  intros Hr Hfit HP Hstep.
  assert (Hsame : m = <[job_id a := r]> m) by (by rewrite insert_id).
  destruct pc; destruct w as [|res|res|uuid res]; simpl in Hstep;
    try discriminate Hstep;
    try (erewrite store_step_present in Hstep by eassumption;
         injection Hstep as <- <- <-; eexists; split; [reflexivity |]);
    simpl in Hfit |- *; split_fits.
  - (* line 37 *)
    split; [done | chain_move].
  - (* the text call *)
    unfold call_step in Hstep. destruct res as [resp|e]; simpl in Hstep.
    + destruct (safe_extract_text_ok resp) as [v Hv]. rewrite Hv in Hstep.
      injection Hstep as <- <- <-. exists r. repeat split; auto using status_move_refl.
    + injection Hstep as <- <- <-. exists r. simpl.
      specialize (HP e eq_refl). repeat split; auto using status_move_refl.
  - (* line 46 *)
    split; [done | chain_move].
  - (* the video call *)
    unfold call_step in Hstep. destruct res as [data|e];
      injection Hstep as <- <- <-; exists r; simpl.
    + repeat split; auto using status_move_refl.
    + specialize (HP e eq_refl). repeat split; auto using status_move_refl.
  - (* the save *)
    unfold call_step in Hstep. destruct res as [u|e];
      injection Hstep as <- <- <-; exists r; simpl.
    + repeat split; auto using status_move_refl.
    + specialize (HP e eq_refl). repeat split; auto using status_move_refl.
  - (* line 64 *)
    pose proof (download_url_not_empty (base_url a) filename).
    split; [done | chain_move].
  - (* line 65 *)
    split; [by left | chain_move].
  - (* line 67 *)
    split; [done | chain_move].
  - (* line 68 *)
    split; [| chain_move]. right. eauto.
Qed.

(** A step writes to the entry of its own job only. *)
Lemma worker_step_other (a : worker_args) (w : outcome) (pc pc' : wstate)
    (m m' : gmap string job) (act : action) (id : string) :
  id ≠ job_id a →
  worker_step a w pc m = Some (act, pc', m') → m' !! id = m !! id.
Proof.
  intros Hne Hstep.
  assert (Hstore : ∀ act0 f next handler,
    store_step act0 f a m next handler = Some (act, pc', m') → m' !! id = m !! id).
  { intros act0 f next handler. unfold store_step, set_field.
    destruct (m !! job_id a); intros [= <- <- <-]; [| done].
    by rewrite lookup_insert_ne. }
  assert (Hcall : ∀ A act0 (res : result exn A) next,
    call_step act0 res m next = Some (act, pc', m') → m' !! id = m !! id).
  { intros A act0 res next. unfold call_step.
    destruct res; by intros [= <- <- <-]. }
  destruct pc; destruct w; simpl in Hstep; try discriminate Hstep; eauto.
Qed.

(** ** The handlers' effects *)

(** [generate] either leaves the process alone or stores the queued entry
    under the new identifier and then starts its worker. *)
Lemma generate_effects (req : request) (uuid : string) :
  (generate req uuid).1 = []
  ∨ ∃ a, (generate req uuid).1 = [StoreJob uuid queued_job; StartThread a]
         ∧ job_id a = uuid.
Proof.
  unfold generate. destruct (read_arguments req) as [[[t n] rt]|e]; [| by left].
  case_decide; [by left |]. right. eexists. split; reflexivity.
Qed.

Lemma status_effects (id : string) (m : gmap string job) : (status id m).1 = [].
Proof. unfold status. by destruct (m !! id). Qed.

(** ** The invariant of the process *)

Lemma inv_initial (P : exn -> Prop) : inv P initial.
Proof.
  unfold inv, initial; simpl. split_and!.
  - intros i j ti tj Hi. by rewrite lookup_nil in Hi.
  - intros i t Hi. by rewrite lookup_nil in Hi.
  - intros id r Hr. by rewrite lookup_empty in Hr.
  - intros k effs Hk. by rewrite lookup_nil in Hk.
  - intros k k' a a' Hk. by rewrite lookup_nil in Hk.
Qed.

(** Line 82: the entry is stored, the thread is still to be started. *)
Lemma inv_store (P : exn -> Prop) (s : system) (a : worker_args) :
  inv P s → jobs s !! job_id a = None →
  inv P (with_handlers (handlers s ++ [[StartThread a]])
           (apply_effect s (StoreJob (job_id a) queued_job))).
Proof.
  intros (Hdistinct & Hfits & Howner & Hpending & Hunique) Hfresh.
  assert (Hold : ∀ i t, threads s !! i = Some t → job_id (th_args t) ≠ job_id a).
  { intros i t Hi Heq. destruct (Hfits i t Hi) as (r & Hr & _). congruence. }
  assert (Hwaiting : ∀ k a0, handlers s !! k = Some [StartThread a0] →
                             job_id a0 ≠ job_id a).
  { intros k a0 Hk Heq.
    destruct (Hpending k _ Hk) as [?|(a1 & Ha1 & Hq & _)]; [done |].
    injection Ha1 as <-. congruence. }
  unfold inv; simpl. split_and!.
  - exact Hdistinct.
  - intros i t Hi. destruct (Hfits i t Hi) as (r & Hr & Hfit).
    exists r. split; [| done]. rewrite lookup_insert_ne; [done |].
    apply not_eq_sym. by eapply Hold.
  - intros id r Hr. destruct (decide (id = job_id a)) as [->|Hne].
    + rewrite lookup_insert_eq in Hr. injection Hr as <-. by right.
    + rewrite lookup_insert_ne in Hr by done. by apply Howner.
  - intros k effs Hk. apply lookup_snoc_Some in Hk as [[_ Hk]|[_ <-]].
    + destruct (Hpending k effs Hk) as [->|(a0 & -> & Hq & Hno)]; [by left |].
      right. exists a0. split_and!; [done | | done].
      rewrite lookup_insert_ne; [done |]. apply not_eq_sym. by eapply Hwaiting.
    + right. exists a. split_and!; [done | apply lookup_insert_eq | exact Hold].
  - intros k k' a1 a2 Hk Hk' Hid.
    apply lookup_snoc_Some in Hk as [[_ Hk]|[-> Heq]];
      apply lookup_snoc_Some in Hk' as [[_ Hk']|[-> Heq']].
    + eauto.
    + injection Heq' as <-. exfalso. by eapply Hwaiting.
    + injection Heq as <-. exfalso. eapply Hwaiting; [exact Hk' | done].
    + done.
Qed.

(** Line 89: the thread is started, at the first line of the worker. *)
Lemma inv_start (P : exn -> Prop) (s : system) (k : nat) (a : worker_args) :
  inv P s → handlers s !! k = Some [StartThread a] →
  inv P (with_handlers (<[k := []]> (handlers s)) (apply_effect s (StartThread a))).
Proof.
  intros (Hdistinct & Hfits & Howner & Hpending & Hunique) Hk.
  destruct (Hpending k _ Hk) as [?|(a0 & Ha0 & Hq & Hno)]; [done |].
  injection Ha0 as <-.
  unfold inv; simpl. split_and!.
  - intros i j ti tj Hi Hj Hid.
    apply lookup_snoc_Some in Hi as [[Hi1 Hi2]|[-> <-]];
      apply lookup_snoc_Some in Hj as [[Hj1 Hj2]|[-> <-]]; simpl in *.
    + eauto.
    + by apply Hno in Hi2.
    + symmetry in Hid. by apply Hno in Hj2.
    + done.
  - intros i t Hi. apply lookup_snoc_Some in Hi as [[_ Hi]|[_ <-]]; simpl.
    + exact (Hfits i t Hi).
    + exists queued_job. split; [done |]. simpl. done.
  - intros id r Hr. destruct (Howner id r Hr) as [(i & t & Hi & Hid) | ->];
      [| by right].
    left. exists i, t. split; [| done]. apply lookup_snoc_Some. left.
    split; [by eapply lookup_lt_Some | done].
  - intros k' effs Hk'.
    apply list_lookup_insert_Some in Hk' as [(_ & <- & _)|[Hne Hk']]; [by left |].
    destruct (Hpending k' effs Hk') as [->|(a1 & -> & Hq1 & Hno1)]; [by left |].
    right. exists a1. split_and!; [done | done |].
    intros i t Hi. apply lookup_snoc_Some in Hi as [[_ Hi]|[_ <-]];
      [by eapply Hno1 |]. simpl. intros Heq. apply Hne. by eapply Hunique.
  - intros k1 k2 a1 a2 Hk1 Hk2 Hid.
    apply list_lookup_insert_Some in Hk1 as [(_ & Hnil & _)|[_ Hk1]]; [done |].
    apply list_lookup_insert_Some in Hk2 as [(_ & Hnil & _)|[_ Hk2]]; [done |].
    eauto.
Qed.

(** [Thread.start] raised: the request ends, the entry stays as stored. *)
Lemma inv_start_failed (P : exn -> Prop) (s : system) (k : nat) :
  inv P s → inv P (with_handlers (<[k := []]> (handlers s)) s).
Proof.
  intros (Hdistinct & Hfits & Howner & Hpending & Hunique).
  unfold inv; simpl. split_and!; [done | done | done | |].
  - intros k' effs Hk'.
    apply list_lookup_insert_Some in Hk' as [(_ & <- & _)|[Hne Hk']]; [by left |].
    exact (Hpending k' effs Hk').
  - intros k1 k2 a1 a2 Hk1 Hk2 Hid.
    apply list_lookup_insert_Some in Hk1 as [(_ & Hnil & _)|[_ Hk1]]; [done |].
    apply list_lookup_insert_Some in Hk2 as [(_ & Hnil & _)|[_ Hk2]]; [done |].
    eauto.
Qed.

Lemma inv_work (P : exn -> Prop) (s : system) (i : nat) (w : outcome)
    (t : thread) (act : action) (pc' : wstate) (m' : gmap string job) :
  inv P s → (∀ e, raised_by (Work i w) = Some e → P e) →
  threads s !! i = Some t →
  worker_step (th_args t) w (th_pc t) (jobs s) = Some (act, pc', m') →
  inv P {| jobs := m';
           threads := <[i := {| th_args := th_args t; th_pc := pc' |}]> (threads s);
           handlers := handlers s |}.
Proof.
  intros (Hdistinct & Hfits & Howner & Hpending & Hunique) HP Ht Hstep.
  destruct (Hfits i t Ht) as (r & Hr & Hfit).
  destruct (worker_step_entry P _ _ _ _ _ _ _ r Hr Hfit HP Hstep)
    as (r' & -> & Hfit' & _).
  assert (Hlen : (i < length (threads s))%nat) by (by eapply lookup_lt_Some).
  assert (Hsame : ∀ j u,
    <[i := {| th_args := th_args t; th_pc := pc' |}]> (threads s) !! j = Some u →
    ∃ u0, threads s !! j = Some u0 ∧ th_args u0 = th_args u
          ∧ (j ≠ i → u = u0) ∧ (j = i → th_pc u = pc')).
  { intros j u Hj. apply list_lookup_insert_Some in Hj as [(-> & <- & _)|[Hne Hj]].
    - exists t. done.
    - exists u. split_and!; [done | done | done | intros ->; done]. }
  unfold inv; simpl. split_and!.
  - intros j k tj tk Hj Hk Hid.
    destruct (Hsame j tj Hj) as (tj0 & Hj0 & Hargsj & _).
    destruct (Hsame k tk Hk) as (tk0 & Hk0 & Hargsk & _).
    apply (Hdistinct j k tj0 tk0 Hj0 Hk0). congruence.
  - intros j u Hj. destruct (Hsame j u Hj) as (u0 & Hj0 & Hargs & Hother & Hself).
    destruct (decide (j = i)) as [->|Hne].
    + assert (u0 = t) as -> by congruence.
      rewrite <- Hargs, lookup_insert_eq. rewrite (Hself eq_refl). eauto.
    + rewrite (Hother Hne).
      assert (job_id (th_args u0) ≠ job_id (th_args t)) as Hid.
      { intros Hid. apply Hne. eapply Hdistinct; eauto. }
      rewrite lookup_insert_ne by (apply not_eq_sym; exact Hid).
      apply Hfits in Hj0. exact Hj0.
  - intros id r0 Hr0. destruct (decide (id = job_id (th_args t))) as [->|Hne].
    + left. exists i, {| th_args := th_args t; th_pc := pc' |}.
      split; [| done]. by apply list_lookup_insert_eq.
    + rewrite lookup_insert_ne in Hr0 by done.
      destruct (Howner id r0 Hr0) as [(j & u & Hj & Hid) | ->]; [| by right].
      left. exists j, u. split; [| done].
      rewrite list_lookup_insert_ne; [done |]. intros ->. congruence.
  - intros k effs Hk.
    destruct (Hpending k effs Hk) as [->|(a0 & -> & Hq & Hno)]; [by left |].
    right. exists a0. split_and!; [done | |].
    + rewrite lookup_insert_ne; [done |]. by eapply Hno.
    + intros j u Hj. destruct (Hsame j u Hj) as (u0 & Hj0 & Hargs & _).
      rewrite <- Hargs. by eapply Hno.
  - exact Hunique.
Qed.

(** A request inside [generate] has the start of its thread left, no more. *)
Lemma handler_next (P : exn -> Prop) (s : system) (k : nat) (e : effect)
    (rest : list effect) :
  inv P s → handlers s !! k = Some (e :: rest) →
  ∃ a, e = StartThread a ∧ rest = [].
Proof.
  intros (_ & _ & _ & Hpending & _) Hk.
  destruct (Hpending k _ Hk) as [?|(a & Ha & _)]; [done |].
  injection Ha as -> ->. eauto.
Qed.

Lemma inv_step (P : exn -> Prop) (ev : event) (s s' : system) :
  inv P s → (∀ e, raised_by ev = Some e → P e) →
  sys_step ev s = Some s' → inv P s'.
Proof.
  intros Hinv HP Hstep.
  destruct ev as [req uuid|id|name|i w|k started]; simpl in Hstep.
  - destruct (generate_effects req uuid) as [Hnone|(a & Hsome & Ha)].
    + rewrite Hnone in Hstep. by injection Hstep as <-.
    + rewrite Hsome in Hstep. case_decide as Hfresh; [| done].
      injection Hstep as <-. subst uuid. by apply inv_store.
  - rewrite status_effects in Hstep. by injection Hstep as <-.
  - by injection Hstep as <-.
  - destruct (threads s !! i) as [t|] eqn:Ht; simpl in Hstep; [| done].
    destruct (worker_step (th_args t) w (th_pc t) (jobs s))
      as [[[act pc'] m']|] eqn:Hw; simpl in Hstep; [| done].
    injection Hstep as <-. by eapply inv_work.
  - destruct (handlers s !! k) as [[|e rest]|] eqn:Hk; try done.
    destruct (handler_next P s k e rest Hinv Hk) as (a & -> & ->).
    destruct started; injection Hstep as <-.
    + by apply inv_start.
    + by apply inv_start_failed.
Qed.

Lemma inv_run (P : exn -> Prop) (evs : list event) (s s' : system) :
  inv P s → raises_only P evs → sys_run evs s = Some s' → inv P s'.
Proof.
  revert s. induction evs as [|ev evs IH]; intros s Hinv Hevs Hrun; simpl in Hrun.
  - by injection Hrun as <-.
  - destruct (sys_step ev s) as [s1|] eqn:Hstep; simpl in Hrun; [| done].
    apply Forall_cons in Hevs as [Hev Hevs].
    eapply IH; [| exact Hevs | exact Hrun]. by eapply inv_step.
Qed.

Lemma raises_only_True (evs : list event) : raises_only (fun _ => True) evs.
Proof. apply Forall_forall. done. Qed.

Lemma reachable_inv (s : system) : reachable s → inv (fun _ => True) s.
Proof.
  intros [evs Hrun]. eapply inv_run; [apply inv_initial | | exact Hrun].
  apply raises_only_True.
Qed.

(** The four things an event can do to the store and the threads. *)
Lemma sys_step_shape (P : exn -> Prop) (s s' : system) (ev : event) :
  inv P s → sys_step ev s = Some s' → step_shape s s' ev.
Proof.
  intros Hinv Hstep. unfold step_shape.
  destruct ev as [req uuid|id|name|i w|k started]; simpl in Hstep.
  - left. split; [done |].
    destruct (generate_effects req uuid) as [Hnone|(a & Hsome & Ha)].
    + rewrite Hnone in Hstep. injection Hstep as <-. by left.
    + rewrite Hsome in Hstep. case_decide as Hfresh; [| done].
      injection Hstep as <-. right. left. exists uuid. done.
  - left. split; [done |]. rewrite status_effects in Hstep.
    injection Hstep as <-. by left.
  - left. split; [done |]. injection Hstep as <-. by left.
  - right. destruct (threads s !! i) as [t|] eqn:Ht; simpl in Hstep; [| done].
    destruct (worker_step (th_args t) w (th_pc t) (jobs s))
      as [[[act pc'] m']|] eqn:Hw; simpl in Hstep; [| done].
    injection Hstep as <-. exists i, w, t, act, pc', m'. done.
  - left. split; [done |].
    destruct (handlers s !! k) as [[|e rest]|] eqn:Hk; try done.
    destruct (handler_next P s k e rest Hinv Hk) as (a & -> & ->).
    destruct Hinv as (_ & _ & _ & Hpending & _).
    destruct (Hpending k _ Hk) as [?|(a0 & Ha0 & Hq & Hno)]; [done |].
    injection Ha0 as <-.
    destruct started; injection Hstep as <-.
    + right. right. exists a. done.
    + by left.
Qed.

Lemma not_work_deliveries (ev : event) (i : nat) :
  (∀ j w, ev ≠ Work j w) → deliveries i [ev] = [].
Proof. intros Hev. destruct ev as [| | |j w|]; try done. by destruct (Hev j w). Qed.

Lemma entry_fits (P : exn -> Prop) (s : system) (id : string) (r : job) :
  inv P s → jobs s !! id = Some r →
  (∃ i t, threads s !! i = Some t ∧ job_id (th_args t) = id
          ∧ fits P (th_pc t) r)
  ∨ r = queued_job.
Proof.
  intros (_ & Hfits & Howner & _) Hr.
  destruct (Howner id r Hr) as [(i & t & Ht & Hid) | ->]; [| by right].
  destruct (Hfits i t Ht) as (r0 & Hr0 & Hfit).
  left. exists i, t. split_and!; [done | done |]. congruence.
Qed.

Lemma thread_fits (P : exn -> Prop) (s : system) (i : nat) (t : thread) (r : job) :
  inv P s → threads s !! i = Some t → jobs s !! job_id (th_args t) = Some r →
  fits P (th_pc t) r.
Proof.
  intros (_ & Hfits & _) Ht Hr.
  destruct (Hfits i t Ht) as (r0 & Hr0 & Hfit). congruence.
Qed.

(** A step of the process moves the status of every entry along the chain. *)
Lemma sys_step_status (s s' : system) (ev : event) (id : string) (r : job) :
  inv (fun _ => True) s → sys_step ev s = Some s' → jobs s !! id = Some r →
  ∃ r', jobs s' !! id = Some r' ∧ status_move (j_status r) (j_status r').
Proof.
  intros Hinv Hstep Hr.
  destruct (sys_step_shape _ s s' ev Hinv Hstep)
    as [[_ [[Hj _]|[(uuid & Hfresh & Hj & _)|(a & _ & _ & Hj & _)]]]
       |(i & w & t & act & pc' & m' & -> & Ht & Hw & Hj & _)]; rewrite Hj.
  - exists r. auto using status_move_refl.
  - exists r. rewrite lookup_insert_ne by congruence. auto using status_move_refl.
  - exists r. auto using status_move_refl.
  - destruct (decide (id = job_id (th_args t))) as [->|Hne].
    + pose proof (thread_fits _ _ _ _ _ Hinv Ht Hr) as Hfit.
      destruct (worker_step_entry (fun _ => True) _ _ _ _ _ _ _ r Hr Hfit
                  (fun _ _ => I) Hw) as (r' & -> & _ & Hmove).
      exists r'. by rewrite lookup_insert_eq.
    + exists r. rewrite (worker_step_other _ _ _ _ _ _ _ _ Hne Hw).
      auto using status_move_refl.
Qed.

(** How a run of the worker ends, by the first stage that fails. *)
Lemma run_cases (a : worker_args) (o : oracle) (m : gmap string job) (r : job) :
  m !! job_id a = Some r →
  ∃ acts r', generation_worker a o m = (acts, WFinished, <[job_id a := r']> m)
    ∧ match first_failure o with
      | Some e =>
          status_writes acts = ["processing"; "error"]
          ∧ j_status r' = "error" ∧ j_message r' = exn_str e
          ∧ j_download_url r' = j_download_url r
      | None =>
          status_writes acts = ["processing"; "done"]
          ∧ j_status r' = "done" ∧ j_message r' = j_message r
          ∧ j_download_url r' =
              rstrip "/" (base_url a) +:+ "/download/" +:+ artifact_name (file_uuid o)
      end.
Proof.
  intros Hr. unfold first_failure.
  destruct (text_result o) as [resp|e] eqn:Ht.
  - destruct (safe_extract_text_ok resp) as [script Hs].
    destruct (video_result o) as [data|e] eqn:Hv.
    + destruct (write_result o) as [u|e] eqn:Hw.
      * rewrite (run_succeeds a o m r Hr resp script data u Ht Hs Hv Hw).
        do 2 eexists. split; [reflexivity | done].
      * rewrite (run_write_fails a o m r Hr resp script data e Ht Hs Hv Hw).
        do 2 eexists. split; [reflexivity | done].
    + rewrite (run_video_fails a o m r Hr resp script e Ht Hs Hv).
      do 2 eexists. split; [reflexivity | done].
  - rewrite (run_text_fails a o m r Hr e Ht).
    do 2 eexists. split; [reflexivity | done].
Qed.

(** Without an entry for its job the worker stops at line 37. *)
Lemma run_no_entry (a : worker_args) (o : oracle) (m : gmap string job) :
  m !! job_id a = None →
  generation_worker a o m
  = ([Raises (KeyError (job_id a))], WCrashed (KeyError (job_id a)), m).
Proof.
  intros Hr. unfold generation_worker. rewrite run_worker_unfold.
  unfold worker_step, answer, store_step, set_field. rewrite Hr.
  by rewrite run_worker_crashed.
Qed.

(** The nine steps of fuel are enough: a run always reaches the end of the
    worker or the point where an exception left it. *)
Lemma generation_worker_stops (a : worker_args) (o : oracle) (m : gmap string job) :
  (generation_worker a o m).1.2 = WFinished
  ∨ ∃ e, (generation_worker a o m).1.2 = WCrashed e.
Proof.
  destruct (m !! job_id a) as [r|] eqn:Hr.
  - destruct (run_cases a o m r Hr) as (acts & r' & -> & _). by left.
  - rewrite (run_no_entry a o m Hr). right. eauto.
Qed.

(** ** The claims *)

(** What a step writes: with the entry of its job present, a step changes
    that entry only, writes the status its action names and no other status,
    and the three lines that assign "status" are 37, 64 and 67. *)
Lemma worker_step_writes (a : worker_args) (w : outcome) (pc pc' : wstate)
    (m m' : gmap string job) (act : action) (r : job) :
  m !! job_id a = Some r → worker_step a w pc m = Some (act, pc', m') →
  ∃ r', m' = <[job_id a := r']> m
    ∧ match act with
      | SetStatus v => j_status r' = v
      | _ => j_status r' = j_status r
      end
    ∧ match pc with
      | WStart => act = SetStatus "processing"
      | WSetDone _ => act = SetStatus "done"
      | WExcStatus _ => act = SetStatus "error"
      | _ => ∀ v, act ≠ SetStatus v
      end.
Proof.
  intros Hr Hstep.
  assert (Hsame : m = <[job_id a := r]> m) by (by rewrite insert_id).
  destruct pc; destruct w as [|res|res|uuid res]; simpl in Hstep;
    try discriminate Hstep;
    try (erewrite store_step_present in Hstep by eassumption;
         injection Hstep as <- <- <-; eexists; split; [reflexivity |];
         simpl; by split).
  - unfold call_step in Hstep. destruct res as [resp|e]; simpl in Hstep.
    + destruct (safe_extract_text resp); injection Hstep as <- <- <-;
        exists r; by split_and!.
    + injection Hstep as <- <- <-. exists r. by split_and!.
  - unfold call_step in Hstep. destruct res; injection Hstep as <- <- <-;
      exists r; by split_and!.
  - unfold call_step in Hstep. destruct res; injection Hstep as <- <- <-;
      exists r; by split_and!.
Qed.

(** C1. The status of a job moves only along queued, processing, then done
    or error.  In every reachable state of the process (identifiers given by
    [uuid4] being new), one step of any worker or of any route handler keeps
    every entry and moves its status along the chain or leaves it; so an
    entry that is done or in error keeps its status, and a queued entry does
    not become an error.  A step of the worker of the job stores processing
    over queued when it is line 37, done over processing when it is line 64,
    error over processing when it is line 67, and leaves the status as it is
    when it is any other line.  A run of the worker on an existing entry
    writes the status exactly twice, first processing, then done or error,
    and the entry it leaves holds the status written last; every write of a
    status by a step is found in the entry after the step. *)
Theorem status_chain :
  (∀ (s s' : system) (ev : event), reachable s → sys_step ev s = Some s' →
     ∀ id r, jobs s !! id = Some r →
       ∃ r', jobs s' !! id = Some r'
         ∧ status_move (j_status r) (j_status r')
         ∧ (j_status r = "done" ∨ j_status r = "error" → j_status r' = j_status r)
         ∧ (j_status r = "queued" → j_status r' ≠ "error")
         ∧ (∀ i w t, ev = Work i w → threads s !! i = Some t →
              job_id (th_args t) = id →
              match th_pc t with
              | WStart => j_status r = "queued" ∧ j_status r' = "processing"
              | WSetDone _ => j_status r = "processing" ∧ j_status r' = "done"
              | WExcStatus _ => j_status r = "processing" ∧ j_status r' = "error"
              | _ => j_status r' = j_status r
              end))
  ∧ (∀ (a : worker_args) (o : oracle) (m : gmap string job) (r : job),
       m !! job_id a = Some r →
       ∃ acts r', generation_worker a o m = (acts, WFinished, <[job_id a := r']> m)
         ∧ ((status_writes acts = ["processing"; "done"] ∧ j_status r' = "done")
            ∨ (status_writes acts = ["processing"; "error"]
               ∧ j_status r' = "error")))
  ∧ (∀ (a : worker_args) (w : outcome) (pc pc' : wstate)
       (m m' : gmap string job) (act : action) (r : job),
       m !! job_id a = Some r → worker_step a w pc m = Some (act, pc', m') →
       ∃ r', m' !! job_id a = Some r'
         ∧ match act with
           | SetStatus v => j_status r' = v
           | _ => j_status r' = j_status r
           end).
Proof.
  split_and!.
  - intros s s' ev Hreach Hstep id r Hr.
    destruct (sys_step_status s s' ev id r (reachable_inv s Hreach) Hstep Hr)
      as (r' & Hr' & Hmove).
    exists r'. split_and!; [done | done | | |].
    + intros Hterminal.
      destruct Hmove as [Heq|[[Hq _]|[Hp _]]]; [done | |];
        destruct Hterminal; congruence.
    + intros Hq Herr.
      destruct Hmove as [Heq|[[_ Hp]|[Hp _]]]; congruence.
    + intros i w t -> Ht Hid. subst id. simpl in Hstep. rewrite Ht in Hstep.
      simpl in Hstep.
      destruct (worker_step (th_args t) w (th_pc t) (jobs s))
        as [[[act pc'] m']|] eqn:Hw; simpl in Hstep; [| done].
      injection Hstep as <-. simpl in Hr'.
      pose proof (thread_fits _ _ _ _ _ (reachable_inv s Hreach) Ht Hr) as Hfit.
      destruct (worker_step_writes _ _ _ _ _ _ _ r Hr Hw) as (r2 & -> & Hact & Hpc).
      rewrite lookup_insert_eq in Hr'. injection Hr' as <-.
      destruct (th_pc t); simpl in Hfit, Hpc; split_fits;
        try (rewrite Hpc in Hact; by split);
        try (destruct act; try done; by destruct (Hpc v)).
  - intros a o m r Hr. destruct (run_cases a o m r Hr) as (acts & r' & Hrun & Hend).
    exists acts, r'. split; [done |].
    destruct (first_failure o); [right | left]; by destruct Hend as (? & ? & _).
  - intros a w pc pc' m m' act r Hr Hstep.
    destruct (worker_step_writes a w pc pc' m m' act r Hr Hstep)
      as (r' & -> & Hact & _).
    exists r'. split; [apply lookup_insert_eq | done].
Qed.

(** C2, as the code has it.  In every reachable state a non-empty
    download_url is found only with status done, and never with status
    error.  An entry with status done and an empty download_url exists only
    while its worker stands between line 64, which has stored done, and line
    65, which stores the URL; once the worker has finished, download_url is
    non-empty exactly when the status is done. *)
Theorem download_url_only_when_done (s : system) (id : string) (r : job) :
  reachable s → jobs s !! id = Some r →
  (j_download_url r ≠ "" → j_status r = "done")
  ∧ (j_status r = "error" → j_download_url r = "")
  ∧ (j_status r = "done" → j_download_url r = "" →
       ∃ i t u, threads s !! i = Some t ∧ job_id (th_args t) = id
                ∧ th_pc t = WSetUrl u)
  ∧ (∀ i t, threads s !! i = Some t → job_id (th_args t) = id →
       th_pc t = WFinished → (j_download_url r ≠ "" ↔ j_status r = "done")).
Proof.
  intros Hreach Hr. pose proof (reachable_inv s Hreach) as Hinv.
  assert (Hfinished : ∀ i t, threads s !! i = Some t → job_id (th_args t) = id →
            th_pc t = WFinished → (j_download_url r ≠ "" ↔ j_status r = "done")).
  { intros i0 t0 Ht0 Hid0 Hpc0. rewrite <- Hid0 in Hr.
    pose proof (thread_fits _ s i0 t0 r Hinv Ht0 Hr) as Hfit0.
    rewrite Hpc0 in Hfit0. simpl in Hfit0.
    destruct Hfit0 as [Hd|He]; split_fits; split; intros; congruence. }
  destruct (entry_fits _ s id r Hinv Hr) as [(i & t & Ht & Hid & Hfit)|Hq].
  - split_and!; [| | | exact Hfinished].
    + intros Hurl. destruct (th_pc t); simpl in Hfit; split_fits; try done.
      destruct Hfit as [Hd|He]; split_fits; done.
    + intros Herr. destruct (th_pc t); simpl in Hfit; split_fits; try done.
      destruct Hfit as [Hd|He]; split_fits; [congruence | done].
    + intros Hdone Hurl. exists i, t.
      destruct (th_pc t) eqn:Hpc; simpl in Hfit; split_fits;
        try congruence; try done.
      * eauto.
      * destruct Hfit as [Hd|He]; split_fits; congruence.
  - (* the entry as [generate] stored it, its thread not started *)
    split_and!; [| | | exact Hfinished]; rewrite Hq; simpl; done.
Qed.


(** C4. When the text-generation call raises, the worker ends with status
    error and the text of the exception as message, leaves script as it was
    (empty for an entry that [generate] stored), and calls neither the media
    collaborator nor the file store. *)
Theorem text_failure_stops_pipeline (a : worker_args) (o : oracle)
    (m : gmap string job) (r : job) (e : exn) :
  m !! job_id a = Some r → text_result o = Raise e →
  ∃ acts r', generation_worker a o m = (acts, WFinished, <[job_id a := r']> m)
    ∧ j_status r' = "error" ∧ j_message r' = exn_str e
    ∧ j_script r' = j_script r ∧ (r = queued_job → j_script r' = PStr "")
    ∧ j_download_url r' = j_download_url r
    ∧ acts = [SetStatus "processing"; CallText (prompt a);
              SetStatus "error"; SetMessage (exn_str e)]
    ∧ count_video acts = 0%nat ∧ count_store acts = 0%nat.
Proof.
  intros Hr Ht. rewrite (run_text_fails a o m r Hr e Ht).
  do 2 eexists. split; [reflexivity |]. simpl.
  split_and!; try done. by intros ->.
Qed.


(** ** The handlers *)

Lemma read_arguments_dict (req : request) (d : list (string * pyval)) (t : string) :
  req_json req = Some (PDict d) → dict_get d "topic" (PStr "") = PStr t →
  read_arguments req =
    match py_int (dict_get d "video_length" (PInt 60)) with
    | Ok n => Ok (strip t, n, dict_get d "ratio" (PStr "9:16"))
    | Raise e => Raise e
    end.
Proof.
  intros Hbody Htopic. unfold read_arguments, get_json. rewrite Hbody. simpl.
  rewrite Htopic. simpl. by destruct (py_int _).
Qed.

(** C5, as the code has it.  A request whose body is a JSON object with a
    topic that is missing or blank after [strip] never changes the store and
    never starts a worker.  It is answered 400 with status "error" and
    message "Missing topic" when video_length is absent or [int] accepts it;
    when [int] raises on video_length, that exception leaves the handler
    instead. *)
Theorem missing_topic_rejected (req : request) (uuid : string)
    (d : list (string * pyval)) (t : string) :
  req_json req = Some (PDict d) → dict_get d "topic" (PStr "") = PStr t →
  strip t = "" →
  (generate req uuid).1 = []
  ∧ (∀ s, apply_effects (generate req uuid).1 s = s)
  ∧ (∀ n, py_int (dict_get d "video_length" (PInt 60)) = Ok n →
       (generate req uuid).2 =
         Ok {| code := 400;
               payload := PDict [("status", PStr "error");
                                 ("message", PStr "Missing topic")] |})
  ∧ (∀ e, py_int (dict_get d "video_length" (PInt 60)) = Raise e →
       (generate req uuid).2 = Raise e).
Proof.
  intros Hbody Htopic Hblank.
  assert (Hnone : (generate req uuid).1 = []).
  { unfold generate. rewrite (read_arguments_dict req d t Hbody Htopic).
    destruct (py_int _); [| done]. rewrite Hblank. by case_decide. }
  split_and!.
  - done.
  - intros s. by rewrite Hnone.
  - intros n Hint. unfold generate.
    rewrite (read_arguments_dict req d t Hbody Htopic), Hint, Hblank.
    by case_decide.
  - intros e Hint. unfold generate.
    by rewrite (read_arguments_dict req d t Hbody Htopic), Hint.
Qed.

(** C6. A submission answered 202 has stored, under the returned
    identifier, an entry with status queued and message, download_url and
    script empty, and only then started the worker, which stands before its
    first line; a status read in that state returns queued. *)
Theorem submit_stores_queued (req : request) (uuid : string)
    (effs : list effect) (resp : response) :
  generate req uuid = (effs, Ok resp) → code resp = 202 →
  ∃ a status_url,
    effs = [StoreJob uuid (Job "queued" "" "" (PStr "")); StartThread a]
    ∧ job_id a = uuid
    ∧ payload resp = PDict [("status", PStr "submitted"); ("job_id", PStr uuid);
                            ("status_url", PStr status_url)]
    ∧ ∀ s, jobs (apply_effects effs s) !! uuid = Some (Job "queued" "" "" (PStr ""))
           ∧ threads (apply_effects effs s)
             = threads s ++ [{| th_args := a; th_pc := WStart |}]
           ∧ (status uuid (jobs (apply_effects effs s))).2
             = Ok {| code := 200;
                     payload := PDict [("status", PStr "queued"); ("message", PStr "");
                                       ("download_url", PStr ""); ("script", PStr "")] |}.
Proof.
  unfold generate. destruct (read_arguments req) as [[[t n] rt]|e]; [| done].
  case_decide; intros [= <- <-]; [done |]. intros _.
  do 2 eexists. split_and!; try reflexivity.
  intros s. simpl. unfold status. rewrite lookup_insert_eq. done.
Qed.

(** C8. [status] answers 404 with status "error" and message "job_id not
    found" for an identifier without entry, and the four fields of the entry
    otherwise; it does nothing to the store. *)
Theorem status_route (id : string) (m : gmap string job) :
  (m !! id = None →
     status id m =
       ([], Ok {| code := 404;
                  payload := PDict [("status", PStr "error");
                                    ("message", PStr "job_id not found")] |}))
  ∧ (∀ r, m !! id = Some r →
       status id m =
         ([], Ok {| code := 200;
                    payload := PDict [("status", PStr (j_status r));
                                      ("message", PStr (j_message r));
                                      ("download_url", PStr (j_download_url r));
                                      ("script", j_script r)] |}))
  ∧ (∀ s, apply_effects (status id (jobs s)).1 s = s).
Proof.
  split_and!.
  - intros H. unfold status. by rewrite H.
  - intros r H. unfold status. by rewrite H.
  - intros s. by rewrite status_effects.
Qed.

Lemma str_call_str (s : string) : str_call (PStr s) = Ok s.
Proof. reflexivity. Qed.

Lemma safe_extract_text_exact_list (x : pyval) (l : list pyval) :
  safe_extract_text_exact (PList (x :: l)) =
    match str_call x with
    | Ok s =>
        Ok (match x with
            | PDict d0 => dict_get d0 "generated_text" (PStr s)
            | _ => PStr s
            end)
    | Raise _ => str_value (PList (x :: l))
    end.
Proof.
  unfold safe_extract_text_exact. simpl.
  destruct x; simpl; unfold str_value; simpl;
    try (destruct (str_raises _); reflexivity); reflexivity.
Qed.

Lemma safe_extract_text_exact_dict (d : list (string * pyval)) :
  safe_extract_text_exact (PDict d) =
    match dict_lookup "generated_text" d with
    | Some v => Ok v
    | None => str_value (PDict d)
    end.
Proof.
  unfold safe_extract_text_exact. simpl. unfold dict_getitem.
  destruct (dict_lookup "generated_text" d) as [v|] eqn:Hv.
  - by rewrite bool_decide_eq_true_2 by eauto.
  - rewrite bool_decide_eq_false_2 by (by intros [? ?]).
    by destruct (str_value (PDict d)).
Qed.

Lemma str_call_returns (v : pyval) :
  str_raises v = None → str_call v = Ok (py_str v).
Proof. intros Hv. destruct v; simpl; by rewrite ?Hv. Qed.

Lemma str_value_returns (v : pyval) :
  str_raises v = None → str_value v = Ok (PStr (py_str v)).
Proof. intros Hv. unfold str_value. by rewrite str_call_returns. Qed.

(** Where [str] returns on the value and on the first element of a list,
    [safe_extract_text_exact] is [safe_extract_text]. *)
Lemma safe_extract_text_exact_returns (resp : pyval) :
  str_raises resp = None →
  (∀ x l, resp = PList (x :: l) → str_raises x = None) →
  safe_extract_text_exact resp = safe_extract_text resp.
Proof.
  intros Hresp Hhead.
  pose proof (str_value_returns resp Hresp) as Hvalue.
  destruct resp as [| |n|x|s|l|d]; try reflexivity;
    try (unfold safe_extract_text_exact; simpl; by rewrite Hvalue).
  - destruct l as [|x l].
    + unfold safe_extract_text_exact; simpl; by rewrite Hvalue.
    + rewrite safe_extract_text_exact_list.
      rewrite (str_call_returns x (Hhead x l eq_refl)).
      unfold safe_extract_text. simpl. by destruct x.
Qed.

(** C9, as the code has it.  [safe_extract_text] returns whenever [str] of
    its argument returns, and an exception that leaves it is the one that
    [str] of the argument raises.  What it returns: a string as it is; for a
    dict that has the key "generated_text" the value stored under the key,
    unchanged, be it a string or not; for a list whose first element is a
    dict, the value under that key of the first element, or [str] of the
    first element when the key is absent; for a list whose first element is
    no dict, [str] of the first element; for any other value, the empty list
    and a dict without the key, [str] of the argument.  (When [str] of the
    first element raises, the [except] branch gives [str] of the whole
    list.)  So the result is a string except when a dict, or the dict at the
    head of a list, holds something else under "generated_text". *)
Theorem safe_extract_text_cases (resp : pyval) :
  (∀ s, resp = PStr s → safe_extract_text_exact resp = Ok (PStr s))
  ∧ (∀ d v, resp = PDict d → dict_lookup "generated_text" d = Some v →
       safe_extract_text_exact resp = Ok v)
  ∧ (∀ d, resp = PDict d → dict_lookup "generated_text" d = None →
       safe_extract_text_exact resp = str_value resp)
  ∧ (∀ d0 l s v, resp = PList (PDict d0 :: l) → str_call (PDict d0) = Ok s →
       dict_lookup "generated_text" d0 = Some v →
       safe_extract_text_exact resp = Ok v)
  ∧ (∀ x l s, resp = PList (x :: l) → str_call x = Ok s →
       (∀ d0, x = PDict d0 → dict_lookup "generated_text" d0 = None) →
       safe_extract_text_exact resp = Ok (PStr s))
  ∧ (∀ x l e, resp = PList (x :: l) → str_call x = Raise e →
       safe_extract_text_exact resp = str_value resp)
  ∧ (resp = PList [] ∨ resp = PNone ∨ (∃ b, resp = PBool b)
     ∨ (∃ n, resp = PInt n) ∨ (∃ x, resp = PFloat x) →
       safe_extract_text_exact resp = str_value resp)
  ∧ (∀ s, str_call resp = Ok s → ∃ v, safe_extract_text_exact resp = Ok v)
  ∧ (∀ e, safe_extract_text_exact resp = Raise e → str_call resp = Raise e)
  ∧ (∀ v, safe_extract_text_exact resp = Ok v →
       is_str v = true
       ∨ ∃ d, (resp = PDict d ∨ ∃ l, resp = PList (PDict d :: l))
              ∧ dict_lookup "generated_text" d = Some v).
Proof.
  assert (Hvalue : ∀ u v, str_value u = Ok v → is_str v = true).
  { intros u v. unfold str_value. destruct (str_call u); simpl; [| done].
    by intros [= <-]. }
  assert (Hraise : ∀ u e, str_value u = Raise e → str_call u = Raise e).
  { intros u e. unfold str_value. destruct (str_call u); simpl; [done |].
    by intros [= <-]. }
  assert (Hother : resp = PList [] ∨ resp = PNone ∨ (∃ b, resp = PBool b)
                   ∨ (∃ n, resp = PInt n) ∨ (∃ x, resp = PFloat x) →
                   safe_extract_text_exact resp = str_value resp).
  { intros [->|[->|[[b ->]|[[n ->]|[x ->]]]]];
      unfold safe_extract_text_exact; simpl; by destruct (str_value _). }
  split_and!.
  - by intros s ->.
  - intros d v -> Hv. by rewrite safe_extract_text_exact_dict, Hv.
  - intros d -> Hv. by rewrite safe_extract_text_exact_dict, Hv.
  - intros d0 l s v -> Hs Hv. rewrite safe_extract_text_exact_list, Hs.
    unfold dict_get. by rewrite Hv.
  - intros x l s -> Hs Hkey. rewrite safe_extract_text_exact_list, Hs.
    destruct x; try done. unfold dict_get. by rewrite (Hkey d eq_refl).
  - intros x l e -> He. by rewrite safe_extract_text_exact_list, He.
  - exact Hother.
  - intros s Hs. destruct resp as [| |n|x|s0|l|d].
    + rewrite Hother by auto. unfold str_value. rewrite Hs. eauto.
    + rewrite Hother by eauto. unfold str_value. rewrite Hs. eauto.
    + rewrite Hother by eauto 6. unfold str_value. rewrite Hs. eauto.
    + rewrite Hother by eauto 6. unfold str_value. rewrite Hs. eauto.
    + eauto.
    + destruct l as [|x l].
      * rewrite Hother by auto. unfold str_value. rewrite Hs. eauto.
      * rewrite safe_extract_text_exact_list. destruct (str_call x); [eauto |].
        unfold str_value. rewrite Hs. eauto.
    + rewrite safe_extract_text_exact_dict.
      destruct (dict_lookup "generated_text" d); [eauto |].
      unfold str_value. rewrite Hs. eauto.
  - intros e. destruct resp as [| |n|x|s0|l|d].
    + rewrite Hother by auto. apply Hraise.
    + rewrite Hother by eauto. apply Hraise.
    + rewrite Hother by eauto 6. apply Hraise.
    + rewrite Hother by eauto 6. apply Hraise.
    + done.
    + destruct l as [|x l].
      * rewrite Hother by auto. apply Hraise.
      * rewrite safe_extract_text_exact_list. destruct (str_call x); [done |].
        apply Hraise.
    + rewrite safe_extract_text_exact_dict.
      destruct (dict_lookup "generated_text" d); [done | apply Hraise].
  - intros v. destruct resp as [| |n|x|s0|l|d].
    + rewrite Hother by auto. intros Hv. left. by eapply Hvalue.
    + rewrite Hother by eauto. intros Hv. left. by eapply Hvalue.
    + rewrite Hother by eauto 6. intros Hv. left. by eapply Hvalue.
    + rewrite Hother by eauto 6. intros Hv. left. by eapply Hvalue.
    + intros [= <-]. by left.
    + destruct l as [|x l].
      * rewrite Hother by auto. intros Hv. left. by eapply Hvalue.
      * rewrite safe_extract_text_exact_list.
        destruct (str_call x) as [s|e]; [| intros Hv; left; by eapply Hvalue].
        intros [= <-]. destruct x; try by left.
        unfold dict_get. destruct (dict_lookup "generated_text" d) as [v|] eqn:Hv;
          [| by left].
        right. exists d. split; [right; by eexists | done].
    + rewrite safe_extract_text_exact_dict.
      destruct (dict_lookup "generated_text" d) as [v0|] eqn:Hv0.
      * intros [= <-]. right. exists d. split; [by left | done].
      * intros Hv. left. by eapply Hvalue.
Qed.

(** C10. When [int] raises on the video_length of a JSON object body,
    [generate] raises whatever the topic is (with a string topic, blank or
    not, it raises that very exception), stores nothing and starts no
    worker, so no identifier is returned.  An integer video_length that is
    zero or negative is taken as it is: with a topic that is not blank the
    entry is stored, the worker is started with that length and the answer
    is 202. *)
Theorem video_length_handling (req : request) (uuid : string)
    (d : list (string * pyval)) :
  req_json req = Some (PDict d) →
  (∀ e, py_int (dict_get d "video_length" (PInt 60)) = Raise e →
     (generate req uuid).1 = []
     ∧ (∃ e', (generate req uuid).2 = Raise e')
     ∧ (∀ t, dict_get d "topic" (PStr "") = PStr t →
          (generate req uuid).2 = Raise e))
  ∧ (∀ n t, dict_get d "video_length" (PInt 60) = PInt n → n <= 0 →
       dict_get d "topic" (PStr "") = PStr t → strip t ≠ "" →
       generate req uuid =
         ([StoreJob uuid queued_job;
           StartThread {| job_id := uuid; topic := strip t; video_length := n;
                          ratio := dict_get d "ratio" (PStr "9:16");
                          base_url := rstrip "/" (url_root req) |}],
          Ok {| code := 202;
                payload := PDict [("status", PStr "submitted"); ("job_id", PStr uuid);
                                  ("status_url",
                                   PStr (rstrip "/" (url_root req) +:+ "/status/" +:+ uuid))] |})).
Proof.
  intros Hbody. split.
  - intros e Hint.
    assert (Hstr : ∀ t, dict_get d "topic" (PStr "") = PStr t →
                        generate req uuid = ([], Raise e)).
    { intros t Htopic. unfold generate.
      by rewrite (read_arguments_dict req d t Hbody Htopic), Hint. }
    destruct (dict_get d "topic" (PStr "")) as [| | | |t| |] eqn:Htopic;
      try (unfold generate, read_arguments, get_json; rewrite Hbody; simpl;
           rewrite Htopic; simpl; split_and!; [done | eauto | intros ? [=]]).
    rewrite (Hstr t eq_refl). simpl. split_and!; [done | eauto | done].
  - intros n t Hlen Hneg Htopic Hblank. unfold generate.
    rewrite (read_arguments_dict req d t Hbody Htopic), Hlen. simpl.
    by case_decide.
Qed.

(** ** Further properties of [safe_extract_text] *)

(** X1. Of a non-empty list only the first element counts.  When [str] of
    the first element returns, the rest of the list never changes the result;
    the result is that of the first element alone when it is a dict or a
    string, and a first element that is itself a list is rendered by [str],
    not unwrapped again.  When [str] of the first element raises (line 30
    evaluates its default before it looks for the key), the result is [str]
    of the whole list, whatever the first element holds.  The empty list is
    rendered by [str]. *)
Theorem safe_extract_text_list_head (x : pyval) (l l' : list pyval) :
  (∀ s, str_call x = Ok s →
     safe_extract_text_exact (PList (x :: l))
     = safe_extract_text_exact (PList (x :: l'))
     ∧ ((∃ d, x = PDict d) ∨ (∃ s0, x = PStr s0) →
          safe_extract_text_exact (PList (x :: l)) = safe_extract_text_exact x)
     ∧ (∀ l0, x = PList l0 →
          safe_extract_text_exact (PList (x :: l)) = Ok (PStr s)))
  ∧ (∀ e, str_call x = Raise e →
       safe_extract_text_exact (PList (x :: l)) = str_value (PList (x :: l)))
  ∧ safe_extract_text_exact (PList []) = str_value (PList []).
Proof.
  split_and!.
  - intros s Hs. rewrite !safe_extract_text_exact_list, Hs. split_and!.
    + done.
    + intros [[d ->]|[s0 ->]].
      * rewrite safe_extract_text_exact_dict. unfold dict_get, str_value.
        rewrite Hs. by destruct (dict_lookup "generated_text" d).
      * simpl in Hs. by injection Hs as <-.
    + by intros l0 ->.
  - intros e He. by rewrite safe_extract_text_exact_list, He.
  - unfold safe_extract_text_exact. simpl. by destruct (str_value _).
Qed.

(** X2. The lookups of [safe_extract_text] are guarded by their tests: the
    [try] block raises only where a call of [str] raises, on the argument or
    on the first element of a list, and never by [resp[key]] or [resp[0]].
    When the block raised the result is [str] of the argument; when it
    returned, the result is what it returned. *)
Theorem safe_extract_text_lookups_guarded (resp : pyval) :
  (∀ e, safe_extract_text_try resp = Raise e →
     (str_call resp = Raise e
      ∨ ∃ x l, resp = PList (x :: l) ∧ str_call x = Raise e)
     ∧ safe_extract_text_exact resp = str_value resp)
  ∧ (∀ v, safe_extract_text_try resp = Ok v →
       safe_extract_text_exact resp = Ok v).
Proof.
  assert (Hraise : ∀ u e, str_value u = Raise e → str_call u = Raise e).
  { intros u e. unfold str_value. destruct (str_call u); simpl; [done |].
    by intros [= <-]. }
  split.
  - intros e Htry. split; [| unfold safe_extract_text_exact; by rewrite Htry].
    destruct resp as [| |n|x|s0|l|d]; simpl in Htry; try (left; by apply Hraise);
      try done.
    + destruct l as [|x l]; simpl in Htry; [left; by apply Hraise |].
      right. exists x, l. split; [done |].
      destruct x; simpl in Htry |- *; unfold str_value in Htry; simpl in Htry;
        first [ done
              | destruct (str_raises _); simpl in Htry;
                first [done | by injection Htry as <-] ].
    + unfold dict_getitem in Htry.
      destruct (dict_lookup "generated_text" d) as [v|] eqn:Hv.
      * by rewrite bool_decide_eq_true_2 in Htry by eauto.
      * rewrite bool_decide_eq_false_2 in Htry by (by intros [? ?]).
        left. by apply Hraise.
  - intros v Htry. unfold safe_extract_text_exact. by rewrite Htry.
Qed.

(** ** Further properties of the runs of the worker *)




(** X6. A worker whose job has no entry stops at line 37, outside the [try]:
    the [KeyError] leaves the thread, the store is as it was and no
    collaborator is called. *)
Theorem worker_without_entry (a : worker_args) (o : oracle) (m : gmap string job) :
  m !! job_id a = None →
  ∃ acts, generation_worker a o m = (acts, WCrashed (KeyError (job_id a)), m)
    ∧ status_writes acts = []
    ∧ count_text acts = 0%nat ∧ count_video acts = 0%nat
    ∧ count_store acts = 0%nat.
Proof.
  intros Hr. rewrite (run_no_entry a o m Hr). eexists. split_and!; done.
Qed.

(** X7. A run of the worker touches the entry of its own job only: every
    other entry is as it was, and the run neither adds nor removes a key of
    the store. *)
Theorem worker_run_isolated (a : worker_args) (o : oracle) (m : gmap string job) :
  (∀ id, id ≠ job_id a → (generation_worker a o m).2 !! id = m !! id)
  ∧ (∀ id, is_Some ((generation_worker a o m).2 !! id) ↔ is_Some (m !! id)).
Proof.
  destruct (m !! job_id a) as [r|] eqn:Hr.
  - destruct (run_cases a o m r Hr) as (acts & r' & -> & _). simpl. split.
    + intros id Hne. by rewrite lookup_insert_ne.
    + intros id. destruct (decide (id = job_id a)) as [->|Hne].
      * rewrite lookup_insert_eq, Hr. split; eauto.
      * by rewrite lookup_insert_ne.
  - rewrite (run_no_entry a o m Hr). simpl. split; done.
Qed.

(** ** Further properties of the process *)

Lemma sys_run_app (evs1 evs2 : list event) (s : system) :
  sys_run (evs1 ++ evs2) s = s1 ← sys_run evs1 s; sys_run evs2 s1.
Proof.
  revert s. induction evs1 as [|ev evs1 IH]; intros s; simpl; [done |].
  destruct (sys_step ev s) as [s1|]; simpl; [apply IH | done].
Qed.

Lemma reachable_run (evs : list event) (s s' : system) :
  reachable s → sys_run evs s = Some s' → reachable s'.
Proof.
  intros [evs0 Hrun0] Hrun. exists (evs0 ++ evs).
  by rewrite sys_run_app, Hrun0.
Qed.

(** Induction over the runs of the process, with the invariant at hand. *)
Lemma run_invariant (Q : system -> Prop) :
  (∀ s s' ev, inv (fun _ => True) s → Q s → sys_step ev s = Some s' → Q s') →
  ∀ evs s s', inv (fun _ => True) s → Q s → sys_run evs s = Some s' → Q s'.
Proof.
  intros Hstep evs. induction evs as [|ev evs IH]; intros s s' Hinv HQ Hrun;
    simpl in Hrun.
  - by injection Hrun as <-.
  - destruct (sys_step ev s) as [s1|] eqn:Hs1; simpl in Hrun; [| done].
    apply (IH s1 s'); [| by eapply Hstep | done].
    eapply inv_step; [exact Hinv | done | exact Hs1].
Qed.

Lemma reachable_invariant (Q : system -> Prop) :
  Q initial →
  (∀ s s' ev, inv (fun _ => True) s → Q s → sys_step ev s = Some s' → Q s') →
  ∀ s, reachable s → Q s.
Proof.
  intros Hinit Hstep s [evs Hrun].
  by apply (run_invariant Q Hstep evs initial s (inv_initial _)).
Qed.

Lemma worker_step_finished (a : worker_args) (w : outcome) (m : gmap string job) :
  worker_step a w WFinished m = None.
Proof. by destruct w. Qed.

(** A thread that is neither finished nor crashed can take the step for
    which [answer] gives the outcome. *)
Lemma worker_step_answer (a : worker_args) (o : oracle) (pc : wstate)
    (m : gmap string job) :
  pc ≠ WFinished → (∀ e, pc ≠ WCrashed e) →
  is_Some (worker_step a (answer o pc) pc m).
Proof.
  intros Hfin Hcrash.
  destruct pc; simpl; unfold store_step, call_step;
    try (destruct (set_field _ _ _); by eauto).
  - destruct (text_result o) as [resp|e]; simpl; [| by eauto].
    destruct (safe_extract_text resp); by eauto.
  - destruct (video_result o); by eauto.
  - destruct (write_result o); by eauto.
  - done.
  - by destruct (Hcrash e).
Qed.

(** X8. No exception ever leaves a worker thread: in every reachable state
    no thread has crashed.  A thread that has not finished can always take
    its next step, whatever the collaborators answer, and the state it
    reaches is reachable. *)
Theorem workers_never_crash (s : system) (i : nat) (t : thread) :
  reachable s → threads s !! i = Some t →
  (∀ e, th_pc t ≠ WCrashed e)
  ∧ (th_pc t ≠ WFinished →
       ∀ o, ∃ s', sys_step (Work i (answer o (th_pc t))) s = Some s'
                  ∧ reachable s').
Proof.
  intros Hreach Ht.
  assert (Hcrash : ∀ e, th_pc t ≠ WCrashed e).
  { intros e Hpc. destruct (reachable_inv s Hreach) as (_ & Hfits & _).
    destruct (Hfits i t Ht) as (r & _ & Hfit). by rewrite Hpc in Hfit. }
  split; [done |]. intros Hfin o.
  destruct (worker_step_answer (th_args t) o (th_pc t) (jobs s) Hfin Hcrash)
    as [[[act pc'] m'] Hstep].
  assert (Hsys : sys_step (Work i (answer o (th_pc t))) s
                 = Some {| jobs := m';
                           threads := <[i := {| th_args := th_args t; th_pc := pc' |}]>
                                        (threads s);
                           handlers := handlers s |}).
  { simpl. rewrite Ht. simpl. by rewrite Hstep. }
  eexists. split; [exact Hsys |].
  apply (reachable_run [Work i (answer o (th_pc t))] s); [done |].
  cbn [sys_run]. by rewrite Hsys.
Qed.

Lemma finished_step (s s' : system) (ev : event) (i : nat) (t : thread) (r : job) :
  inv (fun _ => True) s →
  (threads s !! i = Some t ∧ th_pc t = WFinished
   ∧ jobs s !! job_id (th_args t) = Some r) →
  sys_step ev s = Some s' →
  threads s' !! i = Some t ∧ th_pc t = WFinished
  ∧ jobs s' !! job_id (th_args t) = Some r.
Proof.
  intros Hinv (Ht & Hpc & Hr) Hstep.
  destruct (sys_step_shape _ s s' ev Hinv Hstep)
    as [[_ [[Hj Hth]|[(uuid & Hfresh & Hj & Hth)|(a & _ & _ & Hj & Hth)]]]
       |(j & w & tj & act & pc' & m' & -> & Htj & Hw & Hj & Hth)];
    rewrite Hj, Hth.
  - done.
  - split_and!; [done | done |]. rewrite lookup_insert_ne by congruence. done.
  - split_and!; [| done | done].
    rewrite lookup_app_l by (by eapply lookup_lt_Some). done.
  - destruct (decide (j = i)) as [->|Hne].
    + assert (tj = t) as -> by congruence.
      by rewrite Hpc, worker_step_finished in Hw.
    + split_and!; [| done |].
      * by rewrite list_lookup_insert_ne.
      * assert (job_id (th_args t) ≠ job_id (th_args tj)) as Hid.
        { intros Hid. apply Hne. destruct Hinv as (Hdistinct & _).
          eapply Hdistinct; eauto. }
        by rewrite (worker_step_other _ _ _ _ _ _ _ _ Hid Hw).
Qed.

(** X9. Once the worker of a job has finished, whatever happens next in the
    process (submissions, status reads, steps of other workers) leaves the
    entry of the job as it is, and [status] keeps giving the same answer. *)
Theorem finished_entry_is_final (s s' : system) (evs : list event)
    (i : nat) (t : thread) (r : job) :
  reachable s → threads s !! i = Some t → th_pc t = WFinished →
  jobs s !! job_id (th_args t) = Some r → sys_run evs s = Some s' →
  jobs s' !! job_id (th_args t) = Some r
  ∧ threads s' !! i = Some t
  ∧ status (job_id (th_args t)) (jobs s') = status (job_id (th_args t)) (jobs s).
Proof.
  intros Hreach Ht Hpc Hr Hrun.
  pose proof (run_invariant
    (fun s0 => threads s0 !! i = Some t ∧ th_pc t = WFinished
               ∧ jobs s0 !! job_id (th_args t) = Some r)
    (fun s0 s1 ev Hinv HQ Hstep => finished_step s0 s1 ev i t r Hinv HQ Hstep)
    evs s s' (reachable_inv s Hreach) (conj Ht (conj Hpc Hr)) Hrun)
    as (Ht' & _ & Hr').
  split_and!; [done | done |]. unfold status. by rewrite Hr, Hr'.
Qed.

(** One step keeps the script of the entry in line with the position. *)
Lemma worker_step_script (a : worker_args) (w : outcome) (pc pc' : wstate)
    (m m' : gmap string job) (act : action) (r r' : job) :
  m !! job_id a = Some r → script_fits pc r →
  worker_step a w pc m = Some (act, pc', m') → m' !! job_id a = Some r' →
  script_fits pc' r'.
Proof.
  intros Hr Hfit Hstep Hr'.
  destruct pc; destruct w as [|res|res|uuid res]; simpl in Hstep;
    try discriminate Hstep;
    try (erewrite store_step_present in Hstep by eassumption;
         injection Hstep as <- <- <-; rewrite lookup_insert_eq in Hr';
         injection Hr' as <-; simpl in *; done).
  - unfold call_step in Hstep. destruct res as [resp|e]; simpl in Hstep.
    + destruct (safe_extract_text resp); injection Hstep as <- <- <-;
        simpl in *; first [done | congruence].
    + by injection Hstep as <- <- <-.
  - unfold call_step in Hstep. destruct res; by injection Hstep as <- <- <-.
  - unfold call_step in Hstep. destruct res; by injection Hstep as <- <- <-.
Qed.

Lemma everywhere_step (F : wstate -> job -> Prop) (s s' : system) (ev : event) :
  F WStart queued_job →
  (∀ a w pc pc' m m' act r r',
     m !! job_id a = Some r → F pc r →
     worker_step a w pc m = Some (act, pc', m') → m' !! job_id a = Some r' →
     F pc' r') →
  inv (fun _ => True) s → everywhere F s → sys_step ev s = Some s' →
  everywhere F s'.
Proof.
  intros Fstart Fstep Hinv HF Hstep.
  destruct (sys_step_shape _ s s' ev Hinv Hstep)
    as [[_ [[Hj Hth]|[(uuid & Hfresh & Hj & Hth)|(a & Hq & _ & Hj & Hth)]]]
       |(j & w & tj & act & pc' & m' & -> & Htj & Hw & Hj & Hth)];
    intros i t r; rewrite Hj, Hth; intros Ht Hr.
  - by eapply HF.
  - destruct Hinv as (_ & Hfits & _).
    destruct (Hfits i t Ht) as (r0 & Hr0 & _).
    rewrite lookup_insert_ne in Hr by congruence. by eapply HF.
  - apply lookup_snoc_Some in Ht as [[_ Ht]|[_ <-]]; simpl in *.
    + by eapply HF.
    + rewrite Hq in Hr. by injection Hr as <-.
  - destruct Hinv as (Hdistinct & Hfits & _).
    apply list_lookup_insert_Some in Ht as [(-> & <- & _)|[Hne Ht]]; simpl in *.
    + destruct (Hfits i tj Htj) as (r0 & Hr0 & _).
      eapply Fstep; [exact Hr0 | by eapply HF | exact Hw | exact Hr].
    + assert (job_id (th_args t) ≠ job_id (th_args tj)) as Hid.
      { intros Hid. apply Hne. symmetry. eapply Hdistinct; eauto. }
      rewrite (worker_step_other _ _ _ _ _ _ _ _ Hid Hw) in Hr. by eapply HF.
Qed.

(** X10. In every reachable state the script of an entry is empty as long as
    its worker has not executed line 46, and while the worker stands at the
    media call the entry holds the very script the media prompt is built
    from. *)
Theorem script_empty_until_stored (s : system) (i : nat) (t : thread) (r : job) :
  reachable s → threads s !! i = Some t →
  jobs s !! job_id (th_args t) = Some r →
  (th_pc t = WStart ∨ th_pc t = WCallText ∨ (∃ v, th_pc t = WStoreScript v) →
     j_script r = PStr "")
  ∧ (∀ v, th_pc t = WCallVideo v → j_script r = v).
Proof.
  intros Hreach Ht Hr.
  assert (Hall : everywhere script_fits s).
  { apply (reachable_invariant (everywhere script_fits)); [| | done].
    - intros j u r0 Hj. unfold initial in Hj. simpl in Hj.
      first [discriminate Hj | by rewrite lookup_nil in Hj].
    - intros s0 s1 ev. apply everywhere_step; [done |].
      intros a w pc pc' m m' act r0 r1. apply worker_step_script. }
  specialize (Hall i t r Ht Hr). split.
  - intros [Hpc|[Hpc|[v Hpc]]]; by rewrite Hpc in Hall.
  - intros v Hpc. by rewrite Hpc in Hall.
Qed.

(** Threads with distinct jobs that all have an entry are no more than the
    entries. *)
Lemma threads_no_more_than_entries (P : exn -> Prop) (s : system) :
  inv P s → (length (threads s) ≤ size (jobs s))%nat.
Proof.
  intros (Hdistinct & Hfits & _).
  set (ids := (λ t : thread, job_id (th_args t)) <$> threads s).
  assert (Hnodup : NoDup ids).
  { apply NoDup_alt. intros i j x Hi Hj. unfold ids in Hi, Hj.
    rewrite list_lookup_fmap in Hi. rewrite list_lookup_fmap in Hj.
    destruct (threads s !! i) as [ti|] eqn:Hti; [| done].
    destruct (threads s !! j) as [tj|] eqn:Htj; [| done].
    simpl in Hi, Hj. apply (Hdistinct i j ti tj Hti Htj). congruence. }
  assert (Hsub : list_to_set (C := gset string) ids ⊆ dom (jobs s)).
  { intros x Hx. apply elem_of_list_to_set in Hx.
    apply list_elem_of_fmap in Hx as (t & -> & Ht).
    apply list_elem_of_lookup in Ht as [i Hi].
    destruct (Hfits i t Hi) as (r & Hr & _). apply elem_of_dom. eauto. }
  apply subseteq_size in Hsub.
  rewrite size_list_to_set in Hsub by done. rewrite size_dom in Hsub.
  unfold ids in Hsub. by rewrite length_fmap in Hsub.
Qed.

(** X11. In every reachable state no two worker threads have the same job
    and the job of every thread has an entry.  An entry that no thread works
    on is the one line 82 stored, untouched: its request has not reached
    line 89 yet, or [Thread.start] raised there.  So an entry whose status
    is not queued has its thread, and there are never more threads than
    entries. *)
Theorem at_most_one_worker_per_job (s : system) :
  reachable s →
  (∀ i j ti tj, threads s !! i = Some ti → threads s !! j = Some tj →
     job_id (th_args ti) = job_id (th_args tj) → i = j)
  ∧ (∀ i t, threads s !! i = Some t → is_Some (jobs s !! job_id (th_args t)))
  ∧ (∀ id r, jobs s !! id = Some r →
       (∃ i t, threads s !! i = Some t ∧ job_id (th_args t) = id)
       ∨ r = queued_job)
  ∧ (∀ id r, jobs s !! id = Some r → j_status r ≠ "queued" →
       ∃ i t, threads s !! i = Some t ∧ job_id (th_args t) = id)
  ∧ (length (threads s) ≤ size (jobs s))%nat.
Proof.
  intros Hreach. pose proof (reachable_inv s Hreach) as Hinv.
  pose proof (threads_no_more_than_entries _ s Hinv) as Hcount.
  destruct Hinv as (Hdistinct & Hfits & Howner & _).
  split_and!.
  - exact Hdistinct.
  - intros i t Ht. destruct (Hfits i t Ht) as (r & Hr & _). eauto.
  - exact Howner.
  - intros id r Hr Hstatus. destruct (Howner id r Hr) as [Hthread|Hq]; [done |].
    by rewrite Hq in Hstatus.
  - exact Hcount.
Qed.

(** ** Further properties of [generate] *)

Lemma lstrip_by_empty (p : ascii -> bool) (s : string) :
  lstrip_by p s = "" ↔ all_chars p s = true.
Proof.
  induction s as [|c s IH]; simpl; [done |].
  destruct (p c); simpl; [exact IH | split; discriminate].
Qed.

Lemma lstrip_by_head (p : ascii -> bool) (s : string) (c : ascii) (rest : string) :
  lstrip_by p s = String c rest → p c = false.
Proof.
  induction s as [|d s IH]; simpl; [discriminate |].
  destruct (p d) eqn:Hp; [exact IH | congruence].
Qed.

Lemma rstrip_by_empty (p : ascii -> bool) (s : string) :
  rstrip_by p s = "" ↔ all_chars p s = true.
Proof.
  induction s as [|c s IH]; [done |].
  rewrite rstrip_by_cons. simpl. destruct (rstrip_by p s) as [|d kept].
  - destruct IH as [IH _]. rewrite (IH eq_refl), andb_true_r.
    destruct (p c); split; done.
  - split; [discriminate |]. intros [_ Hall]%andb_true_iff.
    destruct IH as [_ IH]. by apply IH in Hall.
Qed.

Lemma rstrip_by_keeps_head (p : ascii -> bool) (c : ascii) (rest : string) :
  p c = false → ∃ kept, rstrip_by p (String c rest) = String c kept.
Proof.
  intros Hp. rewrite rstrip_by_cons, Hp. destruct (rstrip_by p rest); eauto.
Qed.

(** [strip] gives the empty string exactly on the strings of whitespace. *)
Lemma strip_empty_iff (s : string) :
  strip s = "" ↔ all_chars isspace s = true.
Proof.
  unfold strip. split.
  - intros Hs. apply rstrip_by_empty in Hs.
    destruct (lstrip_by isspace s) as [|c rest] eqn:Hl.
    + by apply lstrip_by_empty.
    + apply lstrip_by_head in Hl. simpl in Hs. by rewrite Hl in Hs.
  - intros Hall. apply lstrip_by_empty in Hall. by rewrite Hall.
Qed.

Lemma strip_idemp (s : string) : strip (strip s) = strip s.
Proof.
  unfold strip. destruct (lstrip_by isspace s) as [|c rest] eqn:Hl; [done |].
  apply lstrip_by_head in Hl.
  destruct (rstrip_by_keeps_head isspace c rest Hl) as [kept Hk].
  rewrite Hk. simpl. rewrite Hl, <- Hk. apply rstrip_by_idemp.
Qed.

Lemma read_arguments_ok (req : request) (tp : string) (n : Z) (rt : pyval) :
  read_arguments req = Ok (tp, n, rt) →
  ∃ d t, req_json req = Some (PDict d)
         ∧ dict_get d "topic" (PStr "") = PStr t ∧ tp = strip t
         ∧ py_int (dict_get d "video_length" (PInt 60)) = Ok n
         ∧ rt = dict_get d "ratio" (PStr "9:16").
Proof.
  unfold read_arguments, get_json.
  destruct (req_json req) as [body|]; simpl; [| done].
  destruct body as [| | | | | |d]; simpl; try done.
  destruct (dict_get d "topic" (PStr "")) as [| | | |t| |] eqn:Htopic;
    simpl; try done.
  destruct (py_int (dict_get d "video_length" (PInt 60))) as [k|e] eqn:Hint;
    simpl; [| done].
  intros [= <- <- <-]. exists d, t. done.
Qed.

(** X12. With a JSON object body whose video_length [int] accepts, a topic
    that is missing or a string is refused with 400 "Missing topic" exactly
    when every character of it is whitespace (the empty and the missing topic
    included); otherwise the job is stored and its worker started. *)
Theorem topic_rejected_iff_blank (req : request) (uuid : string)
    (d : list (string * pyval)) (t : string) (n : Z) :
  req_json req = Some (PDict d) → dict_get d "topic" (PStr "") = PStr t →
  py_int (dict_get d "video_length" (PInt 60)) = Ok n →
  ((generate req uuid).2 = Ok missing_topic ↔ all_chars isspace t = true)
  ∧ ((generate req uuid).1 = [] ↔ all_chars isspace t = true)
  ∧ (all_chars isspace t = false →
       ∃ a, generate req uuid
            = ([StoreJob uuid queued_job; StartThread a],
               Ok (submitted uuid (base_url a)))
            ∧ topic a = strip t ∧ video_length a = n).
Proof.
  intros Hbody Htopic Hint. rewrite <- !strip_empty_iff. unfold generate.
  rewrite (read_arguments_dict req d t Hbody Htopic), Hint.
  case_decide as Hblank; simpl.
  - split_and!; [done | done |]. intros Hall.
    apply strip_empty_iff in Hblank. congruence.
  - split_and!; [split; [discriminate | done] | split; [discriminate | done] |].
    intros _.
    exists {| job_id := uuid; topic := strip t; video_length := n;
              ratio := dict_get d "ratio" (PStr "9:16");
              base_url := rstrip "/" (url_root req) |}.
    done.
Qed.

(** X13. [generate] raises, stores nothing and starts no worker when the
    body is not JSON ([BadRequest]), when the JSON body is not an object, and
    when the topic of the object is not a string ([AttributeError], raised on
    line 73 before video_length is looked at). *)
Theorem malformed_request_raises (req : request) (uuid : string) :
  (req_json req = None → generate req uuid = ([], Raise BadRequest))
  ∧ (∀ body, req_json req = Some body → (∀ d, body ≠ PDict d) →
       generate req uuid = ([], Raise AttributeError))
  ∧ (∀ d, req_json req = Some (PDict d) →
       is_str (dict_get d "topic" (PStr "")) = false →
       generate req uuid = ([], Raise AttributeError)).
Proof.
  unfold generate, read_arguments, get_json. split_and!.
  - intros ->. done.
  - intros body -> Hbody. destruct body; simpl; try done. by destruct (Hbody d).
  - intros d -> Htopic. simpl.
    destruct (dict_get d "topic" (PStr "")); simpl; done.
Qed.

(** X14. The worker that [generate] starts gets the returned identifier, a
    topic that is not empty and has no whitespace around it, the video_length
    and ratio of the body (60 and "9:16" when the keys are absent, any value
    of ratio as it is), and as base URL [url_root] without its trailing
    slashes, on which the [rstrip] of line 63 changes nothing. *)
Theorem started_worker_arguments (req : request) (uuid : string) (a : worker_args) :
  In (StartThread a) (generate req uuid).1 →
  job_id a = uuid
  ∧ topic a ≠ "" ∧ strip (topic a) = topic a
  ∧ base_url a = rstrip "/" (url_root req)
  ∧ rstrip "/" (base_url a) = base_url a
  ∧ ends_with_char "/" (base_url a) = false
  ∧ (generate req uuid).2 = Ok (submitted uuid (base_url a))
  ∧ ∃ d, req_json req = Some (PDict d)
         ∧ ratio a = dict_get d "ratio" (PStr "9:16")
         ∧ py_int (dict_get d "video_length" (PInt 60)) = Ok (video_length a)
         ∧ (dict_lookup "video_length" d = None → video_length a = 60)
         ∧ (dict_lookup "ratio" d = None → ratio a = PStr "9:16").
Proof.
  unfold generate.
  destruct (read_arguments req) as [[[tp n] rt]|e] eqn:Hargs; [| intros []].
  destruct (read_arguments_ok req tp n rt Hargs)
    as (d & t & Hbody & Htopic & -> & Hint & ->).
  case_decide as Hblank; [intros [] |]. simpl.
  intros [Hin|[Hin|[]]]; [discriminate Hin |]. injection Hin as <-. simpl.
  split_and!; try done.
  - apply strip_idemp.
  - apply rstrip_idemp.
  - apply rstrip_slash_spec.
  - exists d. split_and!; try done.
    + intros Hnone. unfold dict_get in Hint. rewrite Hnone in Hint.
      simpl in Hint. congruence.
    + intros Hnone. unfold dict_get. by rewrite Hnone.
Qed.



(** ** Who writes an entry, and for how long *)

(** X16. An entry changes only by a step of the worker of its own job: in a
    reachable state, a step after which the entry of a job is not what it
    was is a step of the thread that works on that job.  So no route handler
    and no other worker ever alters it. *)
Theorem entry_changed_by_own_worker (s s' : system) (ev : event)
    (id : string) (r : job) :
  reachable s → sys_step ev s = Some s' → jobs s !! id = Some r →
  jobs s' !! id ≠ Some r →
  ∃ i w t, ev = Work i w ∧ threads s !! i = Some t ∧ job_id (th_args t) = id.
Proof.
  intros Hreach Hstep Hr Hchanged.
  destruct (sys_step_shape _ s s' ev (reachable_inv s Hreach) Hstep)
    as [[_ [[Hj _]|[(uuid & Hfresh & Hj & _)|(a & _ & _ & Hj & _)]]]
       |(j & w & tj & act & pc' & m' & -> & Htj & Hw & Hj & _)];
    rewrite Hj in Hchanged.
  - done.
  - rewrite lookup_insert_ne in Hchanged by congruence. done.
  - done.
  - destruct (decide (id = job_id (th_args tj))) as [->|Hne].
    + exists j, w, tj. done.
    + by rewrite (worker_step_other _ _ _ _ _ _ _ _ Hne Hw) in Hchanged.
Qed.

(** X17. The worker has no loop and no retry: in a reachable state every
    step of a thread keeps its arguments and brings it strictly closer to
    its end, which is at most seven steps away from the first line; a thread
    has no step left exactly when it has finished. *)
Theorem worker_steps_bounded (s s' : system) (i : nat) (w : outcome) (t : thread) :
  reachable s → threads s !! i = Some t → sys_step (Work i w) s = Some s' →
  ∃ t', threads s' !! i = Some t' ∧ th_args t' = th_args t
        ∧ (steps_left (th_pc t') < steps_left (th_pc t) ≤ 7)%nat
        ∧ (steps_left (th_pc t') = 0%nat ↔ th_pc t' = WFinished).
Proof.
  intros Hreach Ht Hstep. simpl in Hstep. rewrite Ht in Hstep. simpl in Hstep.
  destruct (worker_step (th_args t) w (th_pc t) (jobs s))
    as [[[act pc'] m']|] eqn:Hw; simpl in Hstep; [| done].
  injection Hstep as <-. simpl.
  exists {| th_args := th_args t; th_pc := pc' |}.
  split; [apply list_lookup_insert_eq; by eapply lookup_lt_Some |].
  split; [done |]. simpl.
  destruct (reachable_inv s Hreach) as (_ & Hfits & _).
  destruct (Hfits i t Ht) as (r & Hr & _).
  destruct (th_pc t); destruct w as [|res|res|uuid res]; simpl in Hw;
    try discriminate Hw;
    try (erewrite store_step_present in Hw by eassumption;
         injection Hw as <- <- <-; simpl; split; [lia | split; intros; first [done | lia]]).
  - unfold call_step in Hw. destruct res as [resp|e]; simpl in Hw.
    + destruct (safe_extract_text resp); injection Hw as <- <- <-; simpl;
        (split; [lia | split; intros; first [done | lia]]).
    + injection Hw as <- <- <-; simpl. split; [lia | split; intros; first [done | lia]].
  - unfold call_step in Hw. destruct res; injection Hw as <- <- <-; simpl;
      (split; [lia | split; intros; first [done | lia]]).
  - unfold call_step in Hw. destruct res; injection Hw as <- <- <-; simpl;
      (split; [lia | split; intros; first [done | lia]]).
Qed.

(** X18. In every reachable state the status of an entry is one of
    "queued", "processing", "done" and "error", and an entry that is queued
    or processing has neither message nor download_url. *)
Theorem status_values (s : system) (id : string) (r : job) :
  reachable s → jobs s !! id = Some r →
  (j_status r = "queued" ∨ j_status r = "processing"
   ∨ j_status r = "done" ∨ j_status r = "error")
  ∧ (j_status r = "queued" ∨ j_status r = "processing" →
       j_message r = "" ∧ j_download_url r = "").
Proof.
  intros Hreach Hr.
  destruct (entry_fits _ s id r (reachable_inv s Hreach) Hr)
    as [(i & t & _ & _ & Hfit)|Hq]; [| rewrite Hq; simpl; by auto].
  destruct (th_pc t); simpl in Hfit; split_fits;
    try (split; [by auto | by auto]); try done.
  destruct Hfit as [Hd|He]; split_fits.
  - split; [by auto |]. intros [Hq|Hp]; congruence.
  - split; [by auto |]. intros [Hq|Hp]; congruence.
Qed.

(** ** Jobs do not influence one another *)

Lemma worker_step_local (a : worker_args) (w : outcome) (pc pc' : wstate)
    (m1 m2 m1' : gmap string job) (act : action) :
  m1 !! job_id a = m2 !! job_id a →
  worker_step a w pc m1 = Some (act, pc', m1') →
  ∃ m2', worker_step a w pc m2 = Some (act, pc', m2')
         ∧ m1' !! job_id a = m2' !! job_id a.
Proof.
  intros Heq Hstep.
  assert (Hstore : ∀ act0 f next handler,
    store_step act0 f a m1 next handler = Some (act, pc', m1') →
    ∃ m2', store_step act0 f a m2 next handler = Some (act, pc', m2')
           ∧ m1' !! job_id a = m2' !! job_id a).
  { intros act0 f next handler. unfold store_step, set_field. rewrite <- Heq.
    destruct (m1 !! job_id a) eqn:Hm1; intros [= <- <- <-]; eexists;
      (split; [reflexivity |]); [by rewrite !lookup_insert_eq | congruence]. }
  assert (Hcall : ∀ A act0 (res : result exn A) next,
    call_step act0 res m1 next = Some (act, pc', m1') →
    ∃ m2', call_step act0 res m2 next = Some (act, pc', m2')
           ∧ m1' !! job_id a = m2' !! job_id a).
  { intros A act0 res next. unfold call_step.
    destruct res; intros [= <- <- <-]; eexists; (split; [reflexivity | done]). }
  destruct pc; destruct w; simpl in Hstep |- *; try discriminate Hstep; eauto.
Qed.

Lemma run_outcomes_app (a : worker_args) (ws1 ws2 : list outcome) (pc : wstate)
    (m : gmap string job) :
  run_outcomes a (ws1 ++ ws2) pc m
  = '(pc1, m1) ← run_outcomes a ws1 pc m; run_outcomes a ws2 pc1 m1.
Proof.
  revert pc m. induction ws1 as [|w ws1 IH]; intros pc m; simpl; [done |].
  destruct (worker_step a w pc m) as [[[act pc1] m1]|]; simpl; [apply IH | done].
Qed.

Lemma deliveries_app (i : nat) (evs1 evs2 : list event) :
  deliveries i (evs1 ++ evs2) = deliveries i evs1 ++ deliveries i evs2.
Proof.
  induction evs1 as [|ev evs1 IH]; simpl; [done |].
  destruct ev; try done. case_decide; [by rewrite IH | done].
Qed.

Lemma sys_run_snoc (evs : list event) (ev : event) (s s' : system) :
  sys_run (evs ++ [ev]) s = Some s' →
  ∃ s0, sys_run evs s = Some s0 ∧ sys_step ev s0 = Some s'.
Proof.
  rewrite sys_run_app. destruct (sys_run evs s) as [s0|]; simpl; [| done].
  destruct (sys_step ev s0) as [s1|] eqn:Hstep; simpl; [| done].
  intros [= <-]. eauto.
Qed.

Lemma threads_length_step (ev : event) (s s' : system) :
  sys_step ev s = Some s' → (length (threads s) ≤ length (threads s'))%nat.
Proof.
  destruct ev as [req uuid|id0|name|j w|k started]; simpl; intros Hstep.
  - destruct (generate_effects req uuid) as [Hnone|(a & Hsome & Ha)].
    + rewrite Hnone in Hstep. by injection Hstep as <-.
    + rewrite Hsome in Hstep. case_decide; [| done].
      by injection Hstep as <-.
  - rewrite status_effects in Hstep. by injection Hstep as <-.
  - by injection Hstep as <-.
  - destruct (threads s !! j) as [tj|]; simpl in Hstep; [| done].
    destruct (worker_step _ _ _ _) as [[[act pc'] m']|]; simpl in Hstep; [| done].
    injection Hstep as <-. simpl. by rewrite length_insert.
  - destruct (handlers s !! k) as [[|e rest]|]; try done.
    destruct e, started; try done; injection Hstep as <-; simpl;
      rewrite ?length_app; lia.
Qed.

(** No event addresses a thread that does not exist yet. *)
Lemma deliveries_beyond (evs : list event) (s : system) (i : nat) :
  sys_run evs initial = Some s → (length (threads s) ≤ i)%nat →
  deliveries i evs = [].
Proof.
  revert s. induction evs as [|ev evs IH] using rev_ind; intros s Hrun Hlen;
    [done |].
  apply sys_run_snoc in Hrun as (s0 & Hrun0 & Hstep).
  pose proof (threads_length_step ev s0 s Hstep) as Hmono.
  rewrite deliveries_app, (IH s0 Hrun0) by lia. simpl.
  destruct ev as [| | |j w|]; try done. case_decide as Hj; [| done]. subst j.
  simpl in Hstep. destruct (threads s0 !! i) as [ti|] eqn:Hti; [| done].
  apply lookup_lt_Some in Hti. lia.
Qed.

(** X19. Jobs progress independently.  However the requests and the steps
    of the workers are interleaved, the position of a worker and the entry
    of its job are those the worker reaches when it runs alone, from its
    first line, on a store that holds only the queued entry of its job, with
    the answers it was given in the order they came. *)
Theorem job_depends_on_own_answers (evs : list event) (s : system)
    (i : nat) (t : thread) :
  sys_run evs initial = Some s → threads s !! i = Some t →
  ∃ m, run_outcomes (th_args t) (deliveries i evs) WStart
         (<[job_id (th_args t) := queued_job]> ∅)
       = Some (th_pc t, m)
       ∧ jobs s !! job_id (th_args t) = m !! job_id (th_args t).
Proof.
  revert s i t. induction evs as [|ev evs IH] using rev_ind; intros s i t Hrun Ht.
  { injection Hrun as <-. unfold initial in Ht. simpl in Ht.
    first [discriminate Ht | by rewrite lookup_nil in Ht]. }
  apply sys_run_snoc in Hrun as (s0 & Hrun0 & Hstep).
  pose proof (reachable_inv s0 (ex_intro _ evs Hrun0)) as Hinv.
  assert (Hkeep : threads s0 !! i = Some t → deliveries i [ev] = [] →
                  jobs s !! job_id (th_args t) = jobs s0 !! job_id (th_args t) →
                  ∃ m, run_outcomes (th_args t) (deliveries i (evs ++ [ev])) WStart
                         (<[job_id (th_args t) := queued_job]> ∅)
                       = Some (th_pc t, m)
                       ∧ jobs s !! job_id (th_args t) = m !! job_id (th_args t)).
  { intros Ht0 Hnone Hsame. rewrite deliveries_app, Hnone, app_nil_r, Hsame.
    by apply IH. }
  destruct (sys_step_shape _ s0 s ev Hinv Hstep)
    as [[Hnw [[Hj Hth]|[(uuid & Hfresh & Hj & Hth)|(a & Hq & _ & Hj & Hth)]]]
       |(j & w & tj & act & pc' & m' & -> & Htj & Hw & Hj & Hth)];
    rewrite Hth in Ht.
  - apply Hkeep; [done | by apply not_work_deliveries | by rewrite Hj].
  - apply Hkeep; [done | by apply not_work_deliveries |]. rewrite Hj.
    destruct Hinv as (_ & Hfits & _).
    destruct (Hfits i t Ht) as (r0 & Hr0 & _).
    rewrite lookup_insert_ne by congruence. done.
  - apply lookup_snoc_Some in Ht as [[_ Ht]|[-> <-]].
    + apply Hkeep; [done | by apply not_work_deliveries | by rewrite Hj].
    + rewrite deliveries_app, (deliveries_beyond evs s0 _ Hrun0) by done.
      rewrite (not_work_deliveries ev _ Hnw). simpl.
      eexists. split; [reflexivity |]. by rewrite Hj, Hq, lookup_insert_eq.
  - apply list_lookup_insert_Some in Ht as [(-> & <- & _)|[Hne Ht]]; simpl.
    + destruct (IH s0 i tj Hrun0 Htj) as (m0 & Hrun_alone & Hentry).
      destruct (worker_step_local _ _ _ _ _ m0 _ _ Hentry Hw)
        as (m0' & Hw0 & Hentry').
      exists m0'. split; [| by rewrite Hj].
      rewrite deliveries_app, run_outcomes_app, Hrun_alone. simpl.
      rewrite decide_True by done. simpl. by rewrite Hw0.
    + apply Hkeep; [done | simpl; by rewrite decide_False |]. rewrite Hj.
      assert (job_id (th_args t) ≠ job_id (th_args tj)) as Hid.
      { intros Hid. apply Hne. symmetry. destruct Hinv as (Hdistinct & _).
        eapply Hdistinct; eauto. }
      by rewrite (worker_step_other _ _ _ _ _ _ _ _ Hid Hw).
Qed.

End Program.

(** * Worked instances

    The builtins that the development leaves open, fixed for the examples:
    no float occurs, [repr] is given on the constants and on strings without
    quotes or escapes, and [int] on unsigned decimal numerals. *)

Definition sample_repr (v : @pyval Empty_set) : string :=
  match v with
  | PNone => "None"
  | PBool true => "True"
  | PBool false => "False"
  | PStr s => "'" +:+ s +:+ "'"
  | _ => "..."
  end.

Definition digit_value (c : ascii) : option Z :=
  let n := N_of_ascii c in
  if ((48 <=? n)%N && (n <=? 57)%N)%bool then Some (Z.of_N n - 48) else None.

Fixpoint numeral_value (acc : Z) (s : string) : option Z :=
  match s with
  | EmptyString => Some acc
  | String c rest => d ← digit_value c; numeral_value (10 * acc + d) rest
  end.

Definition sample_int_of_str (s : string) : option Z :=
  match s with
  | EmptyString => None
  | _ => numeral_value 0 s
  end.

Definition sample_int_of_float (x : Empty_set) : result req_exn Z :=
  match x with end.

(** [str] as Python 3.11 has it on integers: it refuses an integer of more
    than 4300 digits, also inside a list or a dict. *)
Definition digits_limit : Z := 10 ^ 4300.

Fixpoint has_long_int (v : @pyval Empty_set) : bool :=
  match v with
  | PInt n => digits_limit <=? Z.abs n
  | PList l => existsb has_long_int l
  | PDict d => existsb (fun kv => has_long_int (snd kv)) d
  | _ => false
  end.

Definition sample_str_raises (v : @pyval Empty_set) : option exn :=
  if has_long_int v
  then Some (Failure "Exceeds the limit (4300 digits) for integer string conversion")
  else None.

Definition run_events : list (@event Empty_set) → @system Empty_set → option system :=
  sys_run sample_repr sample_int_of_str sample_int_of_float.

Definition post_cats : @event Empty_set :=
  PostGenerate
    {| req_json := Some (PDict [("topic", PStr " cats "); ("video_length", PInt 30)]);
       url_root := "http://host/" |}
    "j1".

Definition cats_args : @worker_args Empty_set :=
  {| job_id := "j1"; topic := "cats"; video_length := 30;
     ratio := PStr "9:16"; base_url := "http://host" |}.

Definition cats_thread (pc : wstate) : @thread Empty_set :=
  {| th_args := cats_args; th_pc := pc |}.

(** The first request reaches line 89 and its thread starts. *)
Definition start_cats : @event Empty_set := Proceed 0 true.

(** The events of a run in which every stage succeeds, up to line 64. *)
Definition events_to_done : list (@event Empty_set) :=
  [post_cats; start_cats; Work 0 Silent;
   Work 0 (TextReturned (Ok (PStr "a script")));
   Work 0 Silent; Work 0 (VideoReturned (Ok []));
   Work 0 (FileWritten "f00d" (Ok ())); Work 0 Silent].

(** The events of a run in which the text call raises, up to line 67. *)
Definition events_to_error : list (@event Empty_set) :=
  [post_cats; start_cats; Work 0 Silent;
   Work 0 (TextReturned (Raise (Failure "boom"))); Work 0 Silent].

(** The first request between line 82 and line 89: the entry is stored, the
    thread is not started. *)
Definition stored_state : @system Empty_set :=
  {| jobs := <["j1" := queued_job]> ∅; threads := [];
     handlers := [[StartThread cats_args]] |}.

Definition queued_state : @system Empty_set :=
  {| jobs := <["j1" := queued_job]> ∅; threads := [cats_thread WStart];
     handlers := [[]] |}.

Definition processing_state : @system Empty_set :=
  {| jobs := <["j1" := Job "processing" "" "" (PStr "")]> ∅;
     threads := [cats_thread WCallText]; handlers := [[]] |}.

Definition done_no_url_state : @system Empty_set :=
  {| jobs := <["j1" := Job "done" "" "" (PStr "a script")]> ∅;
     threads := [cats_thread (WSetUrl "http://host/download/short_f00d.mp4")];
     handlers := [[]] |}.

Definition done_state : @system Empty_set :=
  {| jobs := <["j1" := Job "done" "" "http://host/download/short_f00d.mp4"
                         (PStr "a script")]> ∅;
     threads := [cats_thread WFinished]; handlers := [[]] |}.

Definition error_no_message_state : @system Empty_set :=
  {| jobs := <["j1" := Job "error" "" "" (PStr "")]> ∅;
     threads := [cats_thread (WExcMessage (Failure "boom"))]; handlers := [[]] |}.

Definition error_state : @system Empty_set :=
  {| jobs := <["j1" := Job "error" "boom" "" (PStr "")]> ∅;
     threads := [cats_thread WFinished]; handlers := [[]] |}.

Definition failing_text : @oracle Empty_set :=
  {| text_result := Raise (Failure "boom"); video_result := Ok [];
     file_uuid := "f00d"; write_result := Ok () |}.


Example run_to_stored : run_events [post_cats] initial = Some stored_state.
Proof. vm_compute. reflexivity. Qed.

Example run_to_queued :
  run_events [post_cats; start_cats] initial = Some queued_state.
Proof. vm_compute. reflexivity. Qed.

Example run_to_done_without_url :
  run_events events_to_done initial = Some done_no_url_state.
Proof. vm_compute. reflexivity. Qed.

Example run_to_done :
  run_events (events_to_done ++ [Work 0 Silent]) initial = Some done_state.
Proof. vm_compute. reflexivity. Qed.

Example run_to_error_without_message :
  run_events events_to_error initial = Some error_no_message_state.
Proof. vm_compute. reflexivity. Qed.

Example run_to_error :
  run_events (events_to_error ++ [Work 0 Silent]) initial = Some error_state.
Proof. vm_compute. reflexivity. Qed.

Abbreviation sample_reachable :=
  (reachable sample_repr sample_int_of_str sample_int_of_float).

(** C1 at the step of line 37 on the queued entry, and at a run whose text
    call raises. *)
Lemma status_chain_witness :
  (∃ r', jobs processing_state !! "j1" = Some r'
         ∧ status_move "queued" (j_status r')
         ∧ ("queued" = "done" ∨ "queued" = "error" → j_status r' = "queued")
         ∧ ("queued" = "queued" → j_status r' ≠ "error")
         ∧ (∀ i w t, (Work 0 Silent : @event Empty_set) = Work i w →
              threads queued_state !! i = Some t → job_id (th_args t) = "j1" →
              match th_pc t with
              | WStart => "queued" = "queued" ∧ j_status r' = "processing"
              | WSetDone _ => "queued" = "processing" ∧ j_status r' = "done"
              | WExcStatus _ => "queued" = "processing" ∧ j_status r' = "error"
              | _ => j_status r' = "queued"
              end))
  ∧ (∃ acts r',
       generation_worker sample_repr cats_args failing_text (jobs queued_state)
       = (acts, WFinished, <["j1" := r']> (jobs queued_state))
       ∧ ((status_writes acts = ["processing"; "done"] ∧ j_status r' = "done")
          ∨ (status_writes acts = ["processing"; "error"]
             ∧ j_status r' = "error"))).
Proof.
  destruct (status_chain sample_repr sample_int_of_str sample_int_of_float)
    as (Hstep & Hrun & _).
  split.
  - apply (Hstep queued_state processing_state (Work 0 Silent)
             ltac:(exists [post_cats; start_cats]; vm_compute; reflexivity)
             ltac:(vm_compute; reflexivity) "j1" queued_job
             ltac:(vm_compute; reflexivity)).
  - apply (Hrun cats_args failing_text (jobs queued_state) queued_job
             ltac:(vm_compute; reflexivity)).
Defined.

(** C2 as stated fails between lines 64 and 65: the entry is done and its
    download_url is still empty. *)
Lemma done_without_download_url :
  ¬ (∀ (s : @system Empty_set) (id : string) (r : job),
       sample_reachable s → jobs s !! id = Some r →
       (j_download_url r ≠ "" ↔ j_status r = "done")).
Proof.
  intros Hclaim.
  assert (Hreach : sample_reachable done_no_url_state)
    by (exists events_to_done; vm_compute; reflexivity).
  destruct (Hclaim done_no_url_state "j1" (Job "done" "" "" (PStr "a script"))
              Hreach ltac:(vm_compute; reflexivity)) as [_ Hback].
  by apply Hback.
Qed.

Lemma download_url_only_when_done_witness :
  (j_download_url (Job "done" "" "" (PStr "a script") : @job Empty_set) ≠ ""
   → "done" = "done")
  ∧ ("done" = "error" → "" = "")
  ∧ ("done" = "done" → "" = "" →
       ∃ i t u, threads done_no_url_state !! i = Some t
                ∧ job_id (th_args t) = "j1" ∧ th_pc t = WSetUrl u)
  ∧ (∀ i t, threads done_no_url_state !! i = Some t → job_id (th_args t) = "j1" →
       th_pc t = WFinished → ("" ≠ "" ↔ "done" = "done")).
Proof.
  apply (download_url_only_when_done sample_repr sample_int_of_str
           sample_int_of_float done_no_url_state "j1"
           (Job "done" "" "" (PStr "a script"))
           ltac:(exists events_to_done; vm_compute; reflexivity)
           ltac:(vm_compute; reflexivity)).
Defined.




Lemma text_failure_stops_pipeline_witness :
  ∃ acts r',
    generation_worker sample_repr cats_args failing_text (jobs queued_state)
    = (acts, WFinished, <["j1" := r']> (jobs queued_state))
    ∧ j_status r' = "error" ∧ j_message r' = "boom"
    ∧ j_script r' = PStr "" ∧ ((queued_job : @job Empty_set) = queued_job → j_script r' = PStr "")
    ∧ j_download_url r' = ""
    ∧ acts = [SetStatus "processing"; CallText (prompt sample_repr cats_args);
              SetStatus "error"; SetMessage "boom"]
    ∧ count_video acts = 0%nat ∧ count_store acts = 0%nat.
Proof.
  apply (text_failure_stops_pipeline sample_repr cats_args failing_text
           (jobs queued_state) queued_job (Failure "boom")
           ltac:(vm_compute; reflexivity) eq_refl).
Defined.

Abbreviation sample_generate := (generate sample_int_of_str sample_int_of_float).

Definition blank_topic_request : @request Empty_set :=
  {| req_json := Some (PDict [("topic", PStr "   ")]); url_root := "http://host/" |}.

Definition blank_topic_null_length : @request Empty_set :=
  {| req_json := Some (PDict [("topic", PStr ""); ("video_length", PNone)]);
     url_root := "http://host/" |}.

Definition negative_length_request : @request Empty_set :=
  {| req_json := Some (PDict [("topic", PStr "cats"); ("video_length", PInt (-5))]);
     url_root := "http://host/" |}.

Definition worded_length_request : @request Empty_set :=
  {| req_json := Some (PDict [("topic", PStr "cats"); ("video_length", PStr "soon")]);
     url_root := "http://host/" |}.

(** C5 as stated fails when [int] raises on video_length: the blank topic is
    then answered by that exception, not by 400. *)
Lemma blank_topic_not_always_400 :
  ¬ (∀ (req : @request Empty_set) (uuid : string) d t,
       req_json req = Some (PDict d) → dict_get d "topic" (PStr "") = PStr t →
       strip t = "" →
       (sample_generate req uuid).2 =
         Ok {| code := 400;
               payload := PDict [("status", PStr "error");
                                 ("message", PStr "Missing topic")] |}).
Proof.
  intros Hclaim.
  specialize (Hclaim blank_topic_null_length "j1"
                [("topic", PStr ""); ("video_length", PNone)] ""
                eq_refl eq_refl eq_refl).
  vm_compute in Hclaim. discriminate Hclaim.
Qed.

Lemma missing_topic_rejected_witness :
  (sample_generate blank_topic_request "j1").1 = []
  ∧ (∀ s, apply_effects (sample_generate blank_topic_request "j1").1 s = s)
  ∧ (∀ n, py_int sample_int_of_str sample_int_of_float
            (dict_get [("topic", PStr "   ")] "video_length" (PInt 60)) = Ok n →
       (sample_generate blank_topic_request "j1").2 =
         Ok {| code := 400;
               payload := PDict [("status", PStr "error");
                                 ("message", PStr "Missing topic")] |})
  ∧ (∀ e, py_int sample_int_of_str sample_int_of_float
            (dict_get [("topic", PStr "   ")] "video_length" (PInt 60)) = Raise e →
       (sample_generate blank_topic_request "j1").2 = Raise e).
Proof.
  apply (missing_topic_rejected sample_int_of_str sample_int_of_float
           blank_topic_request "j1" [("topic", PStr "   ")] "   "
           eq_refl eq_refl ltac:(vm_compute; reflexivity)).
Defined.

Lemma submit_stores_queued_witness :
  ∃ a status_url,
    (sample_generate negative_length_request "j1").1
    = [StoreJob "j1" (Job "queued" "" "" (PStr "")); StartThread a]
    ∧ job_id a = "j1"
    ∧ (PDict [("status", PStr "submitted"); ("job_id", PStr "j1");
              ("status_url", PStr "http://host/status/j1")] : @pyval Empty_set)
      = PDict [("status", PStr "submitted"); ("job_id", PStr "j1");
               ("status_url", PStr status_url)]
    ∧ ∀ s, jobs (apply_effects (sample_generate negative_length_request "j1").1 s)
             !! "j1" = Some (Job "queued" "" "" (PStr ""))
           ∧ threads (apply_effects (sample_generate negative_length_request "j1").1 s)
             = threads s ++ [{| th_args := a; th_pc := WStart |}]
           ∧ (status "j1"
                (jobs (apply_effects (sample_generate negative_length_request "j1").1 s))).2
             = Ok {| code := 200;
                     payload := PDict [("status", PStr "queued"); ("message", PStr "");
                                       ("download_url", PStr ""); ("script", PStr "")] |}.
Proof.
  apply (submit_stores_queued sample_int_of_str sample_int_of_float
           negative_length_request "j1"
           (sample_generate negative_length_request "j1").1
           {| code := 202;
              payload := PDict [("status", PStr "submitted"); ("job_id", PStr "j1");
                                ("status_url", PStr "http://host/status/j1")] |}
           ltac:(vm_compute; reflexivity) eq_refl).
Defined.


Lemma status_route_witness :
  status "nobody" (jobs done_state)
  = ([], Ok {| code := 404;
               payload := PDict [("status", PStr "error");
                                 ("message", PStr "job_id not found")] |})
  ∧ status "j1" (jobs done_state)
    = ([], Ok {| code := 200;
                 payload := PDict [("status", PStr "done"); ("message", PStr "");
                                   ("download_url",
                                    PStr "http://host/download/short_f00d.mp4");
                                   ("script", PStr "a script")] |}).
Proof.
  split.
  - apply (proj1 (status_route "nobody" (jobs done_state))).
    vm_compute. reflexivity.
  - apply (proj1 (proj2 (status_route "j1" (jobs done_state)))
             (Job "done" "" "http://host/download/short_f00d.mp4" (PStr "a script"))).
    vm_compute. reflexivity.
Defined.

Abbreviation sample_extract := (safe_extract_text_exact sample_repr sample_str_raises).

(** C9 as stated fails on a dict that holds a number under "generated_text":
    the number is returned, not a string. *)
Lemma safe_extract_text_not_a_string :
  ¬ (∀ resp : @pyval Empty_set, ∃ s, sample_extract resp = Ok (PStr s)).
Proof.
  intros Hclaim.
  destruct (Hclaim (PDict [("generated_text", PInt 5)])) as [s Hs].
  vm_compute in Hs. discriminate Hs.
Qed.

(** And on an integer that [str] refuses the function raises: the [except]
    branch calls [str] on the same value. *)
Example safe_extract_text_raises_on_long_int :
  sample_extract (PInt digits_limit)
  = Raise (Failure "Exceeds the limit (4300 digits) for integer string conversion").
Proof. vm_compute. reflexivity. Qed.

Lemma safe_extract_text_cases_witness :
  sample_extract (PDict [("generated_text", PStr "hi"); ("n", PInt digits_limit)])
  = Ok (PStr "hi")
  ∧ sample_extract (PList [PInt 7; PNone]) = Ok (PStr (sample_repr (PInt 7)))
  ∧ sample_extract (PList [PDict [("n", PInt digits_limit)]])
    = str_value sample_repr sample_str_raises (PList [PDict [("n", PInt digits_limit)]])
  ∧ ∃ v, sample_extract PNone = Ok v.
Proof.
  split_and!.
  - apply (proj1 (proj2 (safe_extract_text_cases sample_repr sample_str_raises
                           (PDict [("generated_text", PStr "hi");
                                   ("n", PInt digits_limit)])))
             [("generated_text", PStr "hi"); ("n", PInt digits_limit)] (PStr "hi")
             eq_refl eq_refl).
  - destruct (safe_extract_text_cases sample_repr sample_str_raises
                (PList [PInt 7; PNone])) as (_ & _ & _ & _ & Hhead & _).
    apply (Hhead (PInt 7) [PNone] (sample_repr (PInt 7)) eq_refl
             ltac:(vm_compute; reflexivity)).
    intros d0 Hd0. discriminate Hd0.
  - destruct (safe_extract_text_cases sample_repr sample_str_raises
                (PList [PDict [("n", PInt digits_limit)]]))
      as (_ & _ & _ & _ & _ & Hraise & _).
    apply (Hraise (PDict [("n", PInt digits_limit)]) []
             (Failure "Exceeds the limit (4300 digits) for integer string conversion")
             eq_refl ltac:(vm_compute; reflexivity)).
  - destruct (safe_extract_text_cases sample_repr sample_str_raises PNone)
      as (_ & _ & _ & _ & _ & _ & _ & Hreturns & _).
    apply (Hreturns "None" ltac:(vm_compute; reflexivity)).
Defined.

Lemma video_length_handling_witness :
  ((sample_generate worded_length_request "j1").1 = []
   ∧ (∃ e', (sample_generate worded_length_request "j1").2 = Raise e')
   ∧ (∀ t, (PStr "cats" : @pyval Empty_set) = PStr t →
        (sample_generate worded_length_request "j1").2 = Raise ValueError))
  ∧ sample_generate negative_length_request "j1"
    = ([StoreJob "j1" queued_job;
        StartThread {| job_id := "j1"; topic := "cats"; video_length := -5;
                       ratio := PStr "9:16"; base_url := "http://host" |}],
       Ok {| code := 202;
             payload := PDict [("status", PStr "submitted"); ("job_id", PStr "j1");
                               ("status_url", PStr "http://host/status/j1")] |}).
Proof.
  split.
  - apply (proj1 (video_length_handling sample_int_of_str sample_int_of_float
                    worded_length_request "j1"
                    [("topic", PStr "cats"); ("video_length", PStr "soon")] eq_refl)
             ValueError eq_refl).
  - apply (proj2 (video_length_handling sample_int_of_str sample_int_of_float
                    negative_length_request "j1"
                    [("topic", PStr "cats"); ("video_length", PInt (-5))] eq_refl)
             (-5) "cats" eq_refl ltac:(lia) eq_refl ltac:(vm_compute; discriminate)).
Defined.

(** ** Instances of the further properties *)



Definition plain_text : @oracle Empty_set :=
  {| text_result := Ok (PStr "a script"); video_result := Ok [];
     file_uuid := "f00d"; write_result := Ok () |}.

Definition post_dogs : @event Empty_set :=
  PostGenerate
    {| req_json := Some (PDict [("topic", PStr "dogs")]); url_root := "http://host/" |}
    "j2".

Definition dogs_args : @worker_args Empty_set :=
  {| job_id := "j2"; topic := "dogs"; video_length := 60;
     ratio := PStr "9:16"; base_url := "http://host" |}.

(** The second request reaches line 89 and its thread starts. *)
Definition start_dogs : @event Empty_set := Proceed 1 true.

(** The first job done, a second one just submitted. *)
Definition two_jobs_state : @system Empty_set :=
  {| jobs := <["j2" := queued_job]> (jobs done_state);
     threads := [cats_thread WFinished; {| th_args := dogs_args; th_pc := WStart |}];
     handlers := [[]; []] |}.

(** The first job done, the second request between line 82 and line 89. *)
Definition unstarted_state : @system Empty_set :=
  {| jobs := <["j2" := queued_job]> (jobs done_state);
     threads := [cats_thread WFinished];
     handlers := [[]; [StartThread dogs_args]] |}.

(** The first job done, [Thread.start] of the second request raised. *)
Definition start_failed_state : @system Empty_set :=
  {| jobs := <["j2" := queued_job]> (jobs done_state);
     threads := [cats_thread WFinished];
     handlers := [[]; []] |}.

Example run_to_unstarted :
  run_events (events_to_done ++ [Work 0 Silent; post_dogs]) initial
  = Some unstarted_state.
Proof. vm_compute. reflexivity. Qed.

Example run_to_start_failed :
  run_events (events_to_done ++ [Work 0 Silent; post_dogs; Proceed 1 false]) initial
  = Some start_failed_state.
Proof. vm_compute. reflexivity. Qed.

(** A first element that holds the key and an integer [str] refuses: alone
    it gives the text, at the head of a list the call fails. *)
Definition unprintable_head : @pyval Empty_set :=
  PDict [("generated_text", PStr "hi"); ("n", PInt digits_limit)].

Lemma safe_extract_text_list_head_witness :
  (sample_extract (PList [PDict [("generated_text", PStr "hi")]; PInt 1])
   = sample_extract (PList [PDict [("generated_text", PStr "hi")]])
   ∧ sample_extract (PList [PDict [("generated_text", PStr "hi")]; PInt 1])
     = sample_extract (PDict [("generated_text", PStr "hi")]))
  ∧ sample_extract (PList [unprintable_head; PInt 1])
    = str_value sample_repr sample_str_raises (PList [unprintable_head; PInt 1]).
Proof.
  split.
  - destruct (proj1 (safe_extract_text_list_head sample_repr sample_str_raises
                       (PDict [("generated_text", PStr "hi")]) [PInt 1] [])
                (sample_repr (PDict [("generated_text", PStr "hi")]))
                ltac:(vm_compute; reflexivity)) as (Htail & Halone & _).
    split; [exact Htail |]. apply Halone. left. by eexists.
  - apply (proj1 (proj2 (safe_extract_text_list_head sample_repr sample_str_raises
                           unprintable_head [PInt 1] []))
             (Failure "Exceeds the limit (4300 digits) for integer string conversion")
             ltac:(vm_compute; reflexivity)).
Defined.

Lemma safe_extract_text_lookups_guarded_witness :
  (str_call sample_repr sample_str_raises (PList [unprintable_head])
   = Raise (Failure "Exceeds the limit (4300 digits) for integer string conversion")
   ∨ ∃ x l, PList [unprintable_head] = PList (x :: l)
            ∧ str_call sample_repr sample_str_raises x
              = Raise (Failure "Exceeds the limit (4300 digits) for integer string conversion"))
  ∧ sample_extract (PList [unprintable_head])
    = str_value sample_repr sample_str_raises (PList [unprintable_head]).
Proof.
  apply (proj1 (safe_extract_text_lookups_guarded sample_repr sample_str_raises
                  (PList [unprintable_head]))
           (Failure "Exceeds the limit (4300 digits) for integer string conversion")
           ltac:(vm_compute; reflexivity)).
Defined.




Lemma worker_without_entry_witness :
  ∃ acts,
    generation_worker sample_repr cats_args plain_text (jobs initial)
    = (acts, WCrashed (KeyError "j1"), jobs initial)
    ∧ status_writes acts = []
    ∧ count_text acts = 0%nat ∧ count_video acts = 0%nat
    ∧ count_store acts = 0%nat.
Proof.
  apply (worker_without_entry sample_repr cats_args plain_text (jobs initial)
           ltac:(vm_compute; reflexivity)).
Defined.

Lemma worker_run_isolated_witness :
  (generation_worker sample_repr dogs_args plain_text (jobs two_jobs_state)).2 !! "j1"
  = jobs two_jobs_state !! "j1".
Proof.
  apply (proj1 (worker_run_isolated sample_repr dogs_args plain_text
                  (jobs two_jobs_state)) "j1").
  discriminate.
Defined.

Lemma workers_never_crash_witness :
  (∀ e, th_pc (cats_thread WStart) ≠ WCrashed e)
  ∧ (th_pc (cats_thread WStart) ≠ WFinished →
       ∀ o, ∃ s', sys_step sample_repr sample_int_of_str sample_int_of_float
                    (Work 0 (answer o (th_pc (cats_thread WStart)))) queued_state
                  = Some s'
                  ∧ sample_reachable s').
Proof.
  apply (workers_never_crash sample_repr sample_int_of_str sample_int_of_float
           queued_state 0 (cats_thread WStart)
           ltac:(exists [post_cats; start_cats]; vm_compute; reflexivity) eq_refl).
Defined.

Lemma finished_entry_is_final_witness :
  jobs two_jobs_state !! "j1"
  = Some (Job "done" "" "http://host/download/short_f00d.mp4" (PStr "a script"))
  ∧ threads two_jobs_state !! 0%nat = Some (cats_thread WFinished)
  ∧ status "j1" (jobs two_jobs_state) = status "j1" (jobs done_state).
Proof.
  apply (finished_entry_is_final sample_repr sample_int_of_str sample_int_of_float
           done_state two_jobs_state [GetStatus "j1"; post_dogs; start_dogs] 0
           (cats_thread WFinished)
           (Job "done" "" "http://host/download/short_f00d.mp4" (PStr "a script"))
           ltac:(exists (events_to_done ++ [Work 0 Silent]); vm_compute; reflexivity)
           eq_refl eq_refl ltac:(vm_compute; reflexivity)
           ltac:(vm_compute; reflexivity)).
Defined.

Lemma script_empty_until_stored_witness :
  (th_pc (cats_thread WCallText) = WStart
   ∨ th_pc (cats_thread WCallText) = WCallText
   ∨ (∃ v, th_pc (cats_thread WCallText) = WStoreScript v) →
     j_script (Job "processing" "" "" (PStr "") : @job Empty_set) = PStr "")
  ∧ (∀ v, th_pc (cats_thread WCallText) = WCallVideo v →
       j_script (Job "processing" "" "" (PStr "") : @job Empty_set) = v).
Proof.
  apply (script_empty_until_stored sample_repr sample_int_of_str
           sample_int_of_float processing_state 0 (cats_thread WCallText)
           (Job "processing" "" "" (PStr ""))
           ltac:(exists [post_cats; start_cats; Work 0 Silent]; vm_compute; reflexivity)
           eq_refl ltac:(vm_compute; reflexivity)).
Defined.

(** X11 in a state where the second job has its entry and no thread yet. *)
Lemma at_most_one_worker_per_job_witness :
  (∀ i j ti tj, threads unstarted_state !! i = Some ti →
     threads unstarted_state !! j = Some tj →
     job_id (th_args ti) = job_id (th_args tj) → i = j)
  ∧ (∀ i t, threads unstarted_state !! i = Some t →
       is_Some (jobs unstarted_state !! job_id (th_args t)))
  ∧ (∀ id r, jobs unstarted_state !! id = Some r →
       (∃ i t, threads unstarted_state !! i = Some t ∧ job_id (th_args t) = id)
       ∨ r = queued_job)
  ∧ (∀ id r, jobs unstarted_state !! id = Some r → j_status r ≠ "queued" →
       ∃ i t, threads unstarted_state !! i = Some t ∧ job_id (th_args t) = id)
  ∧ (length (threads unstarted_state) ≤ size (jobs unstarted_state))%nat.
Proof.
  apply (at_most_one_worker_per_job sample_repr sample_int_of_str
           sample_int_of_float unstarted_state
           ltac:(exists (events_to_done ++ [Work 0 Silent; post_dogs]);
                 vm_compute; reflexivity)).
Defined.

Definition not_json_request : @request Empty_set :=
  {| req_json := None; url_root := "http://host/" |}.

Definition list_body_request : @request Empty_set :=
  {| req_json := Some (PList [PStr "cats"]); url_root := "http://host/" |}.

Definition numeric_topic_request : @request Empty_set :=
  {| req_json := Some (PDict [("topic", PInt 7); ("video_length", PStr "soon")]);
     url_root := "http://host/" |}.

Definition short_cats_args : @worker_args Empty_set :=
  {| job_id := "j1"; topic := "cats"; video_length := -5;
     ratio := PStr "9:16"; base_url := "http://host" |}.

Lemma topic_rejected_iff_blank_witness :
  ((sample_generate blank_topic_request "j1").2 = Ok missing_topic
   ↔ all_chars isspace "   " = true)
  ∧ ((sample_generate blank_topic_request "j1").1 = []
     ↔ all_chars isspace "   " = true)
  ∧ (all_chars isspace "   " = false →
       ∃ a, sample_generate blank_topic_request "j1"
            = ([StoreJob "j1" queued_job; StartThread a],
               Ok (submitted "j1" (base_url a)))
            ∧ topic a = strip "   " ∧ video_length a = 60).
Proof.
  apply (topic_rejected_iff_blank sample_int_of_str sample_int_of_float
           blank_topic_request "j1" [("topic", PStr "   ")] "   " 60
           eq_refl eq_refl eq_refl).
Defined.

Lemma malformed_request_raises_witness :
  sample_generate not_json_request "j1" = ([], Raise BadRequest)
  ∧ sample_generate list_body_request "j1" = ([], Raise AttributeError)
  ∧ sample_generate numeric_topic_request "j1" = ([], Raise AttributeError).
Proof.
  split_and!.
  - apply (proj1 (malformed_request_raises sample_int_of_str sample_int_of_float
                    not_json_request "j1") eq_refl).
  - apply (proj1 (proj2 (malformed_request_raises sample_int_of_str
                           sample_int_of_float list_body_request "j1"))
             (PList [PStr "cats"]) eq_refl).
    discriminate.
  - apply (proj2 (proj2 (malformed_request_raises sample_int_of_str
                           sample_int_of_float numeric_topic_request "j1"))
             [("topic", PInt 7); ("video_length", PStr "soon")] eq_refl eq_refl).
Defined.

Lemma started_worker_arguments_witness :
  job_id short_cats_args = "j1"
  ∧ topic short_cats_args ≠ "" ∧ strip (topic short_cats_args) = topic short_cats_args
  ∧ base_url short_cats_args = rstrip "/" (url_root negative_length_request)
  ∧ rstrip "/" (base_url short_cats_args) = base_url short_cats_args
  ∧ ends_with_char "/" (base_url short_cats_args) = false
  ∧ (sample_generate negative_length_request "j1").2
    = Ok (submitted "j1" (base_url short_cats_args))
  ∧ ∃ d, req_json negative_length_request = Some (PDict d)
         ∧ ratio short_cats_args = dict_get d "ratio" (PStr "9:16")
         ∧ py_int sample_int_of_str sample_int_of_float
             (dict_get d "video_length" (PInt 60))
           = Ok (video_length short_cats_args)
         ∧ (dict_lookup "video_length" d = None → video_length short_cats_args = 60)
         ∧ (dict_lookup "ratio" d = None → ratio short_cats_args = PStr "9:16").
Proof.
  apply (started_worker_arguments sample_int_of_str sample_int_of_float
           negative_length_request "j1" short_cats_args).
  vm_compute. right. left. reflexivity.
Defined.


Lemma entry_changed_by_own_worker_witness :
  ∃ i w t, (Work 0 Silent : @event Empty_set) = Work i w
           ∧ threads queued_state !! i = Some t
           ∧ job_id (th_args t) = "j1".
Proof.
  apply (entry_changed_by_own_worker sample_repr sample_int_of_str
           sample_int_of_float queued_state processing_state (Work 0 Silent)
           "j1" queued_job
           ltac:(exists [post_cats; start_cats]; vm_compute; reflexivity)
           ltac:(vm_compute; reflexivity) ltac:(vm_compute; reflexivity)
           ltac:(vm_compute; discriminate)).
Defined.

Lemma worker_steps_bounded_witness :
  ∃ t', threads processing_state !! 0%nat = Some t'
        ∧ th_args t' = th_args (cats_thread WStart)
        ∧ (steps_left (th_pc t') < steps_left (th_pc (cats_thread WStart)) ≤ 7)%nat
        ∧ (steps_left (th_pc t') = 0%nat ↔ th_pc t' = WFinished).
Proof.
  apply (worker_steps_bounded sample_repr sample_int_of_str sample_int_of_float
           queued_state processing_state 0 Silent (cats_thread WStart)
           ltac:(exists [post_cats; start_cats]; vm_compute; reflexivity) eq_refl
           ltac:(vm_compute; reflexivity)).
Defined.

Lemma status_values_witness :
  ("done" = "queued" ∨ "done" = "processing" ∨ "done" = "done" ∨ "done" = "error")
  ∧ ("done" = "queued" ∨ "done" = "processing" →
       "" = "" ∧ "http://host/download/short_f00d.mp4" = "").
Proof.
  apply (status_values sample_repr sample_int_of_str sample_int_of_float
           done_state "j1"
           (Job "done" "" "http://host/download/short_f00d.mp4" (PStr "a script"))
           ltac:(exists (events_to_done ++ [Work 0 Silent]); vm_compute; reflexivity)
           ltac:(vm_compute; reflexivity)).
Defined.

(** Two jobs whose workers take turns: the first stands before line 46, the
    second, whose text call raised, before line 67. *)
Definition interleaved_events : list (@event Empty_set) :=
  [post_cats; start_cats; Work 0 Silent; post_dogs; start_dogs; Work 1 Silent;
   Work 0 (TextReturned (Ok (PStr "a script")));
   Work 1 (TextReturned (Raise (Failure "boom")))].

Definition interleaved_state : @system Empty_set :=
  {| jobs := <["j2" := Job "processing" "" "" (PStr "")]>
               (<["j1" := Job "processing" "" "" (PStr "")]> ∅);
     threads := [cats_thread (WStoreScript (PStr "a script"));
                 {| th_args := dogs_args; th_pc := WExcStatus (Failure "boom") |}];
     handlers := [[]; []] |}.

Lemma job_depends_on_own_answers_witness :
  ∃ m, run_outcomes sample_repr dogs_args (deliveries 1 interleaved_events) WStart
         (<["j2" := queued_job]> ∅)
       = Some (WExcStatus (Failure "boom"), m)
       ∧ jobs interleaved_state !! "j2" = m !! "j2".
Proof.
  apply (job_depends_on_own_answers sample_repr sample_int_of_str
           sample_int_of_float interleaved_events interleaved_state 1
           {| th_args := dogs_args; th_pc := WExcStatus (Failure "boom") |}
           ltac:(vm_compute; reflexivity) eq_refl).
Defined.
